(** * MAI engine tools: raster run-length codec, raster header, archive index

    A shallow embedding of the three Python tools of the repository
    ([CM2Png.py], [Png2Cm.py], [ARC_MAI_PACK_UNPAK.py]) and the properties
    of their binary-format engines.

    Conventions of the embedding.
    - A Python [bytes]/[bytearray] is a [list Z] whose elements lie in
      [0, 256) (see [is_bytes]); a Python [str] is the [list Z] of its
      Unicode code points.
    - Positions, lengths and [pixel_size] are natural numbers: the tools
      only ever form non-negative indices.
    - A Python call either returns a value, raises an exception, or is
      still running when the iteration budget of a [while] loop of the
      model is used up: the three constructors of [outcome]. *)

From stdpp Require Import base numbers list strings.


Open Scope Z_scope.

(** ** Python values and control *)

Abbreviation bytes := (list Z).
Abbreviation str := (list Z).

Definition is_bytes (b : bytes) : Prop := Forall (λ x, 0 ≤ x < 256) b.

Inductive exn :=
| ZeroDivisionError
| StructError
| UnicodeDecodeError
| UnicodeEncodeError
| ValueError
| TypeError
| IndexError.

Inductive outcome (A : Type) : Type :=
| Return (a : A)
| Raise (e : exn)
| Timeout.
Arguments Return {A} a.
Arguments Raise {A} e.
Arguments Timeout {A}.

Definition bind {A B} (m : outcome A) (k : A → outcome B) : outcome B :=
  match m with
  | Return a => k a
  | Raise e => Raise e
  | Timeout => Timeout
  end.

Notation "x ←! m ; k" := (bind m (λ x, k))
  (at level 20, m at level 100, k at level 200, only parsing).
Notation "' p ←! m ; k" := (bind m (λ x, match x with p => k end))
  (at level 20, p pattern, m at level 100, k at level 200, only parsing).

(** The value of a returning call that is not [None], mapped. *)
Definition outcome_map {A B} (g : A → B) (m : outcome (option A))
    : outcome (option B) :=
  x ←! m; Return (g <$> x).
Notation "g <$$> m" := (outcome_map g m) (at level 61, left associativity).

(** [b[lo:hi]] for [0 <= lo], [0 <= hi]: the slice is cut at the end of
    [b] and is empty when [hi <= lo]; it never raises. *)
Definition slice (b : bytes) (lo hi : nat) : bytes := take (hi - lo) (drop lo b).

(** [b * n] on byte strings. *)
Definition bytes_mul (b : bytes) (n : nat) : bytes := mjoin (replicate n b).

(** ** CM2Png.py: [rle_decode] *)

(** One iteration of the [while] loop of [rle_decode], entered with
    [i < len(input_data)]: the new position and the new output. *)
Definition rle_decode_body (input_data : bytes) (pixel_size i : nat)
    (output : bytes) : outcome (nat * bytes) :=
  match input_data !! i with
  | None => Raise IndexError
  | Some code =>
    let i := (i + 1)%nat in
    if bool_decide (code < 0x80) then
      let n := (Z.to_nat code * pixel_size)%nat in
      Return ((i + n)%nat, output ++ slice input_data i (i + n))
    else
      let count := Z.land code 0x7f in
      let pixel := slice input_data i (i + pixel_size) in
      Return ((i + pixel_size)%nat, output ++ bytes_mul pixel (Z.to_nat count))
  end.

Fixpoint rle_decode_loop (fuel : nat) (input_data : bytes) (pixel_size i : nat)
    (output : bytes) : outcome bytes :=
  if bool_decide (i < length input_data)%nat then
    match fuel with
    | O => Timeout
    | S fuel' =>
      '(i', output') ←! rle_decode_body input_data pixel_size i output;
      rle_decode_loop fuel' input_data pixel_size i' output'
    end
  else Return output.

(** The loop is given one iteration per input byte; [rle_decode_fuel]
    below shows that this budget is never used up. *)
Definition rle_decode (input_data : bytes) (pixel_size : nat) : outcome bytes :=
  rle_decode_loop (length input_data) input_data pixel_size 0 [].

(** ** Png2Cm.py: [rle_encode] *)

(** The first inner loop ("find run of identical pixels"); the result is
    the value of [i] when the loop is left. The guard
    [i - run_start < 127 * pixel_size] bounds it by 127 iterations
    ([run_scan_fuel]). *)
Fixpoint run_scan (fuel : nat) (input_data : bytes) (pixel_size run_start i : nat) : nat :=
  match fuel with
  | O => i
  | S fuel' =>
    if bool_decide (i + pixel_size ≤ length input_data)%nat
       && bool_decide (i - run_start < 127 * pixel_size)%nat then
      if bool_decide (slice input_data i (i + pixel_size)
                      ≠ slice input_data run_start (run_start + pixel_size))
      then i
      else run_scan fuel' input_data pixel_size run_start (i + pixel_size)
    else i
  end.

(** The second inner loop ("find literal run"). The chained comparison
    [a == b == c] is [a == b and b == c]. *)
Fixpoint literal_scan (fuel : nat) (input_data : bytes)
    (pixel_size literal_start i : nat) : nat :=
  match fuel with
  | O => i
  | S fuel' =>
    if bool_decide (i + pixel_size ≤ length input_data)%nat
       && bool_decide (i - literal_start < 127 * pixel_size)%nat then
      if bool_decide (i + pixel_size * 2 ≤ length input_data)%nat
         && bool_decide (slice input_data i (i + pixel_size)
                         = slice input_data (i + pixel_size) (i + pixel_size * 2))
         && bool_decide (slice input_data (i + pixel_size) (i + pixel_size * 2)
                         = slice input_data (i + pixel_size * 2) (i + pixel_size * 3))
      then i
      else literal_scan fuel' input_data pixel_size literal_start (i + pixel_size)
    else i
  end.

Fixpoint rle_encode_loop (fuel : nat) (input_data : bytes) (pixel_size i : nat)
    (output : bytes) : outcome bytes :=
  if bool_decide (i < length input_data)%nat then
    match fuel with
    | O => Timeout
    | S fuel' =>
      let run_start := i in
      let i := run_scan 127 input_data pixel_size run_start i in
      if bool_decide (pixel_size = 0%nat) then Raise ZeroDivisionError else
      let run_length := ((i - run_start) / pixel_size)%nat in
      if bool_decide (1 < run_length)%nat then
        rle_encode_loop fuel' input_data pixel_size i
          (output ++ [Z.lor 0x80 (Z.of_nat run_length)]
                  ++ slice input_data run_start (run_start + pixel_size))
      else
        let literal_start := run_start in
        let i := literal_scan 127 input_data pixel_size literal_start
                   (literal_start + pixel_size) in
        let literal_length := ((i - literal_start) / pixel_size)%nat in
        rle_encode_loop fuel' input_data pixel_size i
          (output ++ [Z.of_nat literal_length] ++ slice input_data literal_start i)
    end
  else Return output.

Definition rle_encode (input_data : bytes) (pixel_size : nat) : outcome bytes :=
  rle_encode_loop (length input_data) input_data pixel_size 0 [].

(** ** Segments of the run-length stream *)

(** The spec's RunSegment: a literal run of [count] pixels given in full,
    or one pixel repeated [count] times. *)
Inductive segment :=
| Literal (count : nat) (payload : bytes)
| Repeat (count : nat) (pixel : bytes).

Definition seg_bytes (s : segment) : bytes :=
  match s with
  | Literal count payload => Z.of_nat count :: payload
  | Repeat count pixel => Z.lor 0x80 (Z.of_nat count) :: pixel
  end.

Definition seg_pixels (s : segment) : bytes :=
  match s with
  | Literal _ payload => payload
  | Repeat count pixel => bytes_mul pixel count
  end.

(** A segment that a 7-bit count and [pixel_size] can express, with its
    payload present in full. *)
Definition seg_shape (pixel_size : nat) (s : segment) : Prop :=
  match s with
  | Literal count payload =>
      (count < 128)%nat ∧ length payload = (count * pixel_size)%nat
  | Repeat count pixel => (count < 128)%nat ∧ length pixel = pixel_size
  end.

(** The count bounds the encoder is to respect. *)
Definition seg_count_ok (s : segment) : Prop :=
  match s with
  | Literal count _ => (1 ≤ count ≤ 127)%nat
  | Repeat count _ => (2 ≤ count ≤ 127)%nat
  end.

Definition stream (segs : list segment) : bytes := mjoin (seg_bytes <$> segs).
Definition pixels (segs : list segment) : bytes := mjoin (seg_pixels <$> segs).

(** The segments of a byte stream, read the way [rle_decode] reads it: a
    tag below 0x80 is a literal count, any other tag a repeat count in its
    low seven bits; payloads are cut at the end of the stream. *)
Fixpoint parse_segments (fuel : nat) (input_data : bytes) (pixel_size : nat)
    : list segment :=
  match fuel, input_data with
  | S fuel', code :: rest =>
    if bool_decide (code < 0x80) then
      let n := (Z.to_nat code * pixel_size)%nat in
      Literal (Z.to_nat code) (take n rest)
        :: parse_segments fuel' (drop n rest) pixel_size
    else
      Repeat (Z.to_nat (Z.land code 0x7f)) (take pixel_size rest)
        :: parse_segments fuel' (drop pixel_size rest) pixel_size
  | _, _ => []
  end.

Definition segments_of (input_data : bytes) (pixel_size : nat) : list segment :=
  parse_segments (length input_data) input_data pixel_size.

(** The declared run of the segment whose tag is at position [i] reads
    past the end of the input: a literal tag declaring more payload bytes
    than remain, or a repeat tag with fewer than [pixel_size] bytes
    remaining. *)
Definition run_overruns (input_data : bytes) (pixel_size i : nat) : bool :=
  match input_data !! i with
  | None => false
  | Some code =>
    if bool_decide (code < 0x80)
    then bool_decide (length input_data < i + 1 + Z.to_nat code * pixel_size)%nat
    else bool_decide (length input_data < i + 1 + pixel_size)%nat
  end.

(** Some tag position that the decoder reaches from position [i] has an
    overrunning run. *)
Fixpoint malformed_from (fuel : nat) (input_data : bytes) (pixel_size i : nat) : bool :=
  match fuel with
  | O => false
  | S fuel' =>
    bool_decide (i < length input_data)%nat
    && (run_overruns input_data pixel_size i
        || match rle_decode_body input_data pixel_size i [] with
           | Return (i', _) => malformed_from fuel' input_data pixel_size i'
           | _ => false
           end)
  end.

Definition malformed (input_data : bytes) (pixel_size : nat) : bool :=
  malformed_from (length input_data) input_data pixel_size 0.

(** The reading of the spec's sentence on malformed input: every
    malformed input makes [rle_decode] raise. *)
Definition decode_fails_closed : Prop :=
  ∀ (input_data : bytes) (pixel_size : nat),
    is_bytes input_data → (1 ≤ pixel_size)%nat →
    malformed input_data pixel_size = true →
    ∃ e, rle_decode input_data pixel_size = Raise e.

(** ** [struct.pack] and [struct.unpack], little-endian *)

(** The [n] low bytes of [v], least significant first. *)
Fixpoint le_bytes (n : nat) (v : Z) : bytes :=
  match n with
  | O => []
  | S n' => v `mod` 256 :: le_bytes n' (v `div` 256)
  end.

Fixpoint le_value (b : bytes) : Z :=
  match b with
  | [] => 0
  | x :: b' => x + 256 * le_value b'
  end.

(** [pack('<B' | '<H' | '<I', v)] for [n = 1, 2, 4]: [struct.error] when
    [v] does not fit. *)
Definition pack_uint (n : nat) (v : Z) : outcome bytes :=
  if bool_decide (0 ≤ v < 256 ^ Z.of_nat n) then Return (le_bytes n v)
  else Raise StructError.

(** [unpack('<B' | '<H' | '<I', b)[0]]: [struct.error] unless [b] has
    exactly [n] bytes. *)
Definition unpack_uint (n : nat) (b : bytes) : outcome Z :=
  if bool_decide (length b = n) then Return (le_value b) else Raise StructError.

(** [unpack('<i', b)[0]]: the two's complement reading of four bytes. *)
Definition unpack_int32 (b : bytes) : outcome Z :=
  v ←! unpack_uint 4 b;
  Return (if bool_decide (v < 2 ^ 31) then v else v - 2 ^ 32).

(** [b[lo:hi] = v] on a [bytearray], for [lo <= hi]. *)
Definition slice_assign (b : bytes) (lo hi : nat) (v : bytes) : bytes :=
  take lo b ++ v ++ drop (lo `max` hi) b.

(** [b[i] = v] on a [bytearray]. *)
Definition item_assign (b : bytes) (i : nat) (v : Z) : outcome bytes :=
  if bool_decide (i < length b)%nat then
    if bool_decide (0 ≤ v < 256) then Return (<[i := v]> b)
    else Raise ValueError
  else Raise IndexError.

(** ** Png2Cm.py: [write_cm_metadata]; CM2Png.py: [read_cm_metadata] *)

(** The [metadata] dictionary that [convert_png_to_cm] builds. *)
Record cm_metadata := {
  size : Z;
  width : Z;
  height : Z;
  colors : Z;
  bpp : Z;
  is_compressed : bool;
  data_offset : Z;
  data_length : Z
}.

(** The dictionary that [read_cm_metadata] returns: no ['size'] key. *)
Record cm_info := {
  info_width : Z;
  info_height : Z;
  info_colors : Z;
  info_bpp : Z;
  info_is_compressed : bool;
  info_data_offset : Z;
  info_data_length : Z
}.

Definition info_of (metadata : cm_metadata) : cm_info :=
  {| info_width := width metadata;
     info_height := height metadata;
     info_colors := colors metadata;
     info_bpp := bpp metadata;
     info_is_compressed := is_compressed metadata;
     info_data_offset := data_offset metadata;
     info_data_length := data_length metadata |}.

(** [b'CM'] *)
Definition cm_magic : bytes := [0x43; 0x4D].

(** [file] is the content written so far to the file opened for writing;
    the result is the content after [file.write(header)]. *)
Definition write_cm_metadata (file : bytes) (metadata : cm_metadata) : outcome bytes :=
  let header := replicate 0x20 0 in
  let header := slice_assign header 0 2 cm_magic in
  packed ←! pack_uint 4 (size metadata);
  let header := slice_assign header 2 6 packed in
  packed ←! pack_uint 2 (width metadata);
  let header := slice_assign header 6 8 packed in
  packed ←! pack_uint 2 (height metadata);
  let header := slice_assign header 8 10 packed in
  packed ←! pack_uint 2 (colors metadata);
  let header := slice_assign header 0x0A 0x0C packed in
  header ←! item_assign header 0x0C (bpp metadata);
  header ←! item_assign header 0x0D (Z.b2z (is_compressed metadata));
  header ←! item_assign header 0x0E 1;
  packed ←! pack_uint 4 (data_offset metadata);
  let header := slice_assign header 0x10 0x14 packed in
  packed ←! pack_uint 4 (data_length metadata);
  let header := slice_assign header 0x14 0x18 packed in
  Return (file ++ header).

(** [content] is the whole content of the file, which has just been
    opened for reading; [os.path.getsize(file.name)] is its length. The
    result [None] is Python's [None]. *)
Definition read_cm_metadata (content : bytes) : outcome (option cm_info) :=
  let header := take 0x20 content in
  if bool_decide (slice header 0 2 ≠ cm_magic) then Return None else
  match header !! 0x0E%nat with
  | None => Raise IndexError
  | Some version =>
    if bool_decide (version ≠ 1) then Return None else
    size ←! unpack_uint 4 (slice header 2 6);
    if bool_decide (size ≠ Z.of_nat (length content)) then Return None else
    width ←! unpack_uint 2 (slice header 6 8);
    height ←! unpack_uint 2 (slice header 8 10);
    colors ←! unpack_uint 2 (slice header 0x0A 0x0C);
    match header !! 0x0C%nat, header !! 0x0D%nat with
    | Some bpp, Some compressed =>
      data_offset ←! unpack_uint 4 (slice header 0x10 0x14);
      data_length ←! unpack_uint 4 (slice header 0x14 0x18);
      Return (Some {| info_width := width;
                      info_height := height;
                      info_colors := colors;
                      info_bpp := bpp;
                      info_is_compressed := bool_decide (compressed ≠ 0);
                      info_data_offset := data_offset;
                      info_data_length := data_length |})
    | _, _ => Raise IndexError
    end
  end.

(** The 0x20 bytes that [write_cm_metadata] lays out. *)
Definition cm_header (md : cm_metadata) : bytes :=
  cm_magic ++ le_bytes 4 (size md) ++ le_bytes 2 (width md)
  ++ le_bytes 2 (height md) ++ le_bytes 2 (colors md)
  ++ [bpp md; Z.b2z (is_compressed md); 1; 0]
  ++ le_bytes 4 (data_offset md) ++ le_bytes 4 (data_length md)
  ++ replicate 8 0.

(** A 2x1 true-colour image of one repeated pixel, as [convert_png_to_cm]
    describes it. *)
Definition sample_metadata : cm_metadata :=
  {| size := 0x24; width := 2; height := 1; colors := 0; bpp := 24;
     is_compressed := true; data_offset := 0x20; data_length := 4 |}.

(** ** ARC_MAI_PACK_UNPAK.py: files, paths and the read helpers *)

(** A string literal as a Python [str]. *)
Definition str_of (s : String.string) : str :=
  (λ c, Z.of_nat (Ascii.nat_of_ascii c)) <$> String.list_ascii_of_string s.
Arguments str_of s%_string.

(** A file on disk: its path and its content. [os.path.getsize] is the
    length of the content. *)
Record file := { file_path : str; file_content : bytes }.

Definition getsize (f : file) : Z := Z.of_nat (length (file_content f)).

(** [f.seek(offset); f.read(n)] on a freshly opened file: the bytes that
    are there, fewer than [n] at the end of the file. *)
Definition read_at (f : file) (offset n : nat) : bytes :=
  slice (file_content f) offset (offset + n).

Definition read_uint32 (f : file) (offset : nat) : outcome Z :=
  unpack_uint 4 (read_at f offset 4).

Definition read_int32 (f : file) (offset : nat) : outcome Z :=
  unpack_int32 (read_at f offset 4).

Definition read_uint16 (f : file) (offset : nat) : outcome Z :=
  unpack_uint 2 (read_at f offset 2).

Definition read_byte (f : file) (offset : nat) : outcome Z :=
  unpack_uint 1 (read_at f offset 1).

(** [b.decode('ascii')] *)
Definition decode_ascii (b : bytes) : outcome str :=
  if bool_decide (Forall (λ x, x < 128) b) then Return b
  else Raise UnicodeDecodeError.

(** [s.rstrip('\x00')] *)
Fixpoint rstrip_nul (s : str) : str :=
  match s with
  | [] => []
  | c :: s' =>
    match rstrip_nul s' with
    | [] => if bool_decide (c = 0) then [] else [c]
    | r => c :: r
    end
  end.

Definition read_string (f : file) (offset length : nat) : outcome str :=
  s ←! decode_ascii (read_at f offset length);
  Return (rstrip_nul s).

(** ['/'], ['\\'] and ['.'] *)
Definition slash : Z := 47.
Definition backslash : Z := 92.
Definition dot : Z := 46.

(** [os.path.basename] of [posixpath]: what follows the last ['/']. *)
Fixpoint basename (p : str) : str :=
  match p with
  | [] => []
  | c :: p' =>
    if bool_decide (slash ∈ p') then basename p'
    else if bool_decide (c = slash) then p' else p
  end.

(** [os.path.join(a, b)] of [posixpath]. *)
Definition path_join (a b : str) : str :=
  match b with
  | c :: _ =>
    if bool_decide (c = slash) then b
    else if bool_decide (a = [] ∨ last a = Some slash) then a ++ b
    else a ++ [slash] ++ b
  | [] =>
    if bool_decide (a = [] ∨ last a = Some slash) then a else a ++ [slash]
  end.

(** [s.rfind(c)]: the last index of [c] in [s], or -1. *)
Fixpoint rfind_from (c : Z) (s : str) (i found : Z) : Z :=
  match s with
  | [] => found
  | x :: s' => rfind_from c s' (i + 1) (if bool_decide (x = c) then i else found)
  end.

Definition rfind (c : Z) (s : str) : Z := rfind_from c s 0 (-1).

(** [os.path.splitext(p)[0]] of [posixpath]: the extension starts at the
    last dot of the last component, unless only dots precede it there. *)
Definition splitext_root (p : str) : str :=
  let sep_index := rfind slash p in
  let dot_index := rfind dot p in
  if bool_decide (sep_index < dot_index)
     && bool_decide (Exists (λ c, c ≠ dot)
          (slice p (Z.to_nat (sep_index + 1)) (Z.to_nat dot_index)))
  then take (Z.to_nat dot_index) p
  else p.

(** ** [ArcOpener.try_open] *)

(** An element of [folders] and an element of the resulting [entries]. *)
Record folder := { folder_name : str; folder_index : Z }.

Record entry := {
  entry_name : str;
  entry_offset : Z;
  entry_size : Z;
  entry_type : str
}.

(** The dictionary [{'file': file, 'entries': dir}]. *)
Record archive := { arc_file : str; arc_entries : list entry }.

Definition detect_file_type (f : file) (offset : Z) : outcome str :=
  signature ←! read_uint32 f (Z.to_nat offset);
  let signature_type := Z.land signature 0xFFFF in
  if bool_decide (signature_type = 0x4D43) then Return (str_of ".cm")
  else if bool_decide (signature_type = 0x4D41) then Return (str_of ".am")
  else if bool_decide (signature_type = 0x4D42) then Return (str_of ".bmp")
  else if bool_decide (signature_type = 0x10B4) then Return (str_of ".msk")
  else Return (str_of ".bin").

Definition check_placement (e : entry) (max_offset : Z) : bool :=
  bool_decide (entry_offset e + entry_size e ≤ max_offset).

(** The override type of a ["mask.arc"] archive. *)
Definition mask_type : str := str_of "MSK/MAI".

(** [os.path.basename(file).lower() == "mask.arc"]. The case mapping
    [str.lower] of the interpreter is the parameter [lower]: it follows
    the Unicode tables, and nothing is assumed about it. *)
Definition is_mask_arc (lower : str → str) (path : str) : bool :=
  bool_decide (lower (basename path) = str_of "mask.arc").

(** The loop [for _ in range(dir_entries)] that reads the directory
    table; [n] iterations are left. *)
Fixpoint read_folders (f : file) (n : nat) (dir_offset : nat)
    (folders : list folder) : outcome (list folder) :=
  match n with
  | O => Return folders
  | S n' =>
    name ←! read_string f dir_offset 4;
    index ←! read_int32 f (dir_offset + 4);
    read_folders f n' (dir_offset + 8)
      (folders ++ [{| folder_name := name; folder_index := index |}])
  end.

(** [folders[k]['index']] *)
Definition folder_index_at (folders : list folder) (k : nat) : outcome Z :=
  match folders !! k with
  | Some fo => Return (folder_index fo)
  | None => Raise IndexError
  end.

(** The inner loop
    [while i >= next_folder and folder < len(folders)]: the new
    [current_folder], [folder] and [next_folder]. [len(None)] is a
    [TypeError]. Each iteration increments [folder], so [len(folders)]
    iterations are enough. *)
Fixpoint advance_folder (fuel : nat) (folders : option (list folder))
    (count i : Z) (current_folder : str) (folder : nat) (next_folder : Z)
    : outcome (str * nat * Z) :=
  if bool_decide (next_folder ≤ i) then
    match folders with
    | None => Raise TypeError
    | Some fs =>
      if bool_decide (folder < length fs)%nat then
        match fuel with
        | O => Timeout
        | S fuel' =>
          match fs !! folder with
          | None => Raise IndexError
          | Some fo =>
            let current_folder := folder_name fo in
            let folder := (folder + 1)%nat in
            next_folder ←!
              (if bool_decide (folder = length fs) then Return count
               else folder_index_at fs folder);
            advance_folder fuel' folders count i current_folder folder next_folder
          end
        end
      else Return (current_folder, folder, next_folder)
    end
  else Return (current_folder, folder, next_folder).

Section resolver.
(** The method that [self.detect_file_type] resolves to. *)
Variable detect : file → Z → outcome str.
Variable f : file.
Variable mask : bool.
Variable folders : option (list folder).
Variable count : Z.

(** The loop [for i in range(count)], with [n] iterations left. The
    result [None] is the [return None] of the loop body. *)
Fixpoint entries_loop (n : nat) (i : Z) (index_offset : nat)
    (current_folder : str) (folder : nat) (next_folder : Z) (dir : list entry)
    : outcome (option (list entry)) :=
  match n with
  | O => Return (Some dir)
  | S n' =>
    '(current_folder, folder, next_folder) ←!
      advance_folder (length (default [] folders)) folders count i
        current_folder folder next_folder;
    name ←! read_string f index_offset 0x10;
    if bool_decide (length name = 0%nat) then Return None else
    offset ←! read_uint32 f (index_offset + 0x10);
    size ←! read_uint32 f (index_offset + 0x14);
    type ←! (if negb mask then detect f offset else Return mask_type);
    let e := {| entry_name := path_join current_folder name;
                entry_offset := offset;
                entry_size := size;
                entry_type := type |} in
    if negb (check_placement e (getsize f)) then Return None else
    entries_loop n' (i + 1) (index_offset + 0x18)
      current_folder folder next_folder (dir ++ [e])
  end.
End resolver.

Definition try_open_with (lower : str → str)
    (detect : file → Z → outcome str) (f : file) : outcome (option archive) :=
  file_size ←! read_uint32 f 4;
  if bool_decide (file_size ≠ getsize f) then Return None else
  count ←! read_int32 f 8;
  if bool_decide (count ≤ 0 ∨ count > 0xfffff) then Return None else
  dir_level ←! read_byte f 0x0d;
  dir_entries ←! read_uint16 f 0x0e;
  let index_offset := 0x10%nat in
  let index_size := count * 0x18 + dir_entries * 8 in
  if bool_decide (index_size > getsize f - Z.of_nat index_offset)
  then Return None else
  folders ←!
    (if bool_decide (dir_entries ≠ 0) && bool_decide (dir_level = 2) then
       let dir_offset := (index_offset + Z.to_nat count * 0x18)%nat in
       fs ←! read_folders f (Z.to_nat dir_entries) dir_offset [];
       Return (Some fs)
     else Return None);
  let mask := is_mask_arc lower (file_path f) in
  next_folder ←!
    (match folders with
     | None => Return count
     | Some fs => folder_index_at fs 0
     end);
  dir ←! entries_loop detect f mask folders count (Z.to_nat count) 0
           index_offset [] 0 next_folder [];
  Return ((λ d, {| arc_file := file_path f; arc_entries := d |}) <$> dir).

Definition try_open (lower : str → str) (f : file) : outcome (option archive) :=
  try_open_with lower detect_file_type f.

(** ** [ArcOpener.pack_files] *)

(** ['MAI\x0a'] *)
Definition signature : Z := 0x0a49414d.

(** [s.ljust(0x10, '\x00')]: padded on the right up to 16 characters,
    and left as it is when longer. *)
Definition ljust16 (s : str) : str := s ++ replicate (0x10 - length s) 0.

(** The name under which [pack_files] records a file whose path relative
    to the packed directory is [relpath]. *)
Definition packed_name (relpath : str) : str :=
  splitext_root ((λ c, if bool_decide (c = backslash) then slash else c) <$> relpath).

Section packer.
(** The table of the [cp932] codec: the bytes of each code point, [None]
    where the code point cannot be encoded. *)
Variable cp932 : Z → option bytes.

(** [s.encode('cp932')] *)
Fixpoint encode_cp932 (s : str) : outcome bytes :=
  match s with
  | [] => Return []
  | c :: s' =>
    match cp932 c with
    | None => Raise UnicodeEncodeError
    | Some b => rest ←! encode_cp932 s'; Return (b ++ rest)
    end
  end.

(** The bytes written for the name of an index record. *)
Definition name_field (name : str) : outcome bytes := encode_cp932 (ljust16 name).

(** The loop that assigns [entry['offset']]: each entry with its offset,
    and the final [data_offset]. *)
Fixpoint assign_offsets (entries : list (str * bytes)) (data_offset : nat)
    : list (str * bytes * nat) * nat :=
  match entries with
  | [] => ([], data_offset)
  | (name, data) :: entries' =>
    let '(placed, total) := assign_offsets entries' (data_offset + length data) in
    ((name, data, data_offset) :: placed, total)
  end.

(** The loop that writes the index: one record per entry. *)
Fixpoint write_index (placed : list (str * bytes * nat)) : outcome bytes :=
  match placed with
  | [] => Return []
  | (name, data, offset) :: placed' =>
    field ←! name_field name;
    packed_offset ←! pack_uint 4 (Z.of_nat offset);
    packed_size ←! pack_uint 4 (Z.of_nat (length data));
    rest ←! write_index placed';
    Return (field ++ packed_offset ++ packed_size ++ rest)
  end.

(** [listing] is what the walk of the directory finds: for each regular
    file, in the order of the walk, its path relative to the directory
    and its content. The result is the content of the archive written. *)
Definition pack_files (listing : list (str * bytes)) : outcome bytes :=
  let entries := (λ '(relpath, data), (packed_name relpath, data)) <$> listing in
  let current_offset := 0x10%nat in
  let index_size := (length entries * 0x18)%nat in
  let data_offset := (current_offset + index_size)%nat in
  let '(placed, total_size) := assign_offsets entries data_offset in
  packed_signature ←! pack_uint 4 signature;
  packed_total ←! pack_uint 4 (Z.of_nat total_size);
  packed_count ←! pack_uint 4 (Z.of_nat (length entries));
  index ←! write_index placed;
  Return (packed_signature ++ packed_total ++ packed_count ++ [0; 1; 0; 0]
          ++ index ++ mjoin ((λ '(_, data, _), data) <$> placed)).
End packer.

(** A fragment of the [cp932] table: ASCII is encoded as itself, the
    half-width katakana in one byte, HIRAGANA LETTER A in two. *)
Definition cp932_fragment (c : Z) : option bytes :=
  if bool_decide (0 ≤ c < 128) then Some [c]
  else if bool_decide (0xFF61 ≤ c ≤ 0xFF9F) then Some [c - 0xFF61 + 0xA1]
  else if bool_decide (c = 0x3042) then Some [0x82; 0xA0]
  else None.

(** A fragment of [str.lower]: the ASCII capitals and KELVIN SIGN
    (U+212A, the one code point outside ASCII whose lower case is an
    ASCII letter) are mapped to their small letters, and the other ASCII
    code points to themselves. It stands in for [str.lower] on the names
    of the sample archives, which consist of such code points; what it
    gives on other code points is not meant. *)
Definition lower_fragment (s : str) : str :=
  (λ c, if bool_decide (65 ≤ c ≤ 90) then c + 32
        else if bool_decide (c = 0x212A) then 107 else c) <$> s.

(** ** Sample archives *)

(** An index record as it lies in a well-formed archive. *)
Definition record_bytes (name : str) (offset size : Z) : bytes :=
  ljust16 name ++ le_bytes 4 offset ++ le_bytes 4 size.

(** A directory-table record. *)
Definition folder_bytes (name : str) (index : Z) : bytes :=
  take 4 (name ++ replicate 4 0) ++ le_bytes 4 index.

(** One entry named "A" whose declared range starts at the very end of
    the 0x28-byte file and is one byte long. *)
Definition misplaced_archive : file :=
  {| file_path := str_of "data.arc";
     file_content :=
       le_bytes 4 signature ++ le_bytes 4 0x28 ++ le_bytes 4 1 ++ [0; 1; 0; 0]
       ++ record_bytes (str_of "A") 0x28 1 |}.

(** Five entries of four bytes each under the directory table
    [AA @ 0; BB @ 3], with directory level 2. *)
Definition two_folder_content : bytes :=
  le_bytes 4 signature ++ le_bytes 4 172 ++ le_bytes 4 5 ++ [0; 2; 2; 0]
  ++ record_bytes (str_of "a") 152 4
  ++ record_bytes (str_of "b") 156 4
  ++ record_bytes (str_of "c") 160 4
  ++ record_bytes (str_of "d") 164 4
  ++ record_bytes (str_of "e") 168 4
  ++ folder_bytes (str_of "AA") 0
  ++ folder_bytes (str_of "BB") 3
  ++ [0x43; 0x4D; 0; 0] ++ [0x41; 0x4D; 0; 0] ++ [0x42; 0x4D; 0; 0]
  ++ [0xB4; 0x10; 0; 0] ++ [1; 2; 3; 4].

Definition two_folder_archive : file :=
  {| file_path := str_of "game/data.arc"; file_content := two_folder_content |}.

(** The same archive with the records 0 and 3 named "/a" and "/etc/d". *)
Definition rooted_names_archive : file :=
  {| file_path := str_of "game/data.arc";
     file_content :=
       le_bytes 4 signature ++ le_bytes 4 172 ++ le_bytes 4 5 ++ [0; 2; 2; 0]
       ++ record_bytes (str_of "/a") 152 4
       ++ record_bytes (str_of "b") 156 4
       ++ record_bytes (str_of "c") 160 4
       ++ record_bytes (str_of "/etc/d") 164 4
       ++ record_bytes (str_of "e") 168 4
       ++ folder_bytes (str_of "AA") 0
       ++ folder_bytes (str_of "BB") 3
       ++ [0x43; 0x4D; 0; 0] ++ [0x41; 0x4D; 0; 0] ++ [0x42; 0x4D; 0; 0]
       ++ [0xB4; 0x10; 0; 0] ++ [1; 2; 3; 4] |}.

(** The reading of the sentence on directory resolution: whenever an
    archive with the directory table [AA @ 0; BB @ 3], directory level 2
    and 5 flat entries is resolved, the names of entries 0, 1 and 2
    begin with "AA" and those of entries 3 and 4 with "BB". *)
Definition two_folder_prefixes (lower : str → str) : Prop :=
  ∀ (f : file) (arc : archive),
    read_int32 f 8 = Return 5 →
    read_byte f 0x0d = Return 2 →
    read_uint16 f 0x0e = Return 2 →
    read_folders f 2 (0x10 + 5 * 0x18) []
      = Return [{| folder_name := str_of "AA"; folder_index := 0 |};
                {| folder_name := str_of "BB"; folder_index := 3 |}] →
    try_open lower f = Return (Some arc) →
    Forall2 (λ e folder, folder `prefix_of` entry_name e) (arc_entries arc)
      [str_of "AA"; str_of "AA"; str_of "AA"; str_of "BB"; str_of "BB"].

(** The same bytes under the reserved name. *)
Definition two_folder_mask_archive : file :=
  {| file_path := str_of "game/Mask.ARC"; file_content := two_folder_content |}.

(** What resolution gives for the entries of [two_folder_mask_archive]:
    the override type for all five. *)
Definition mask_archive_entries : list entry :=
  [{| entry_name := str_of "AA/a"; entry_offset := 152; entry_size := 4;
      entry_type := mask_type |};
   {| entry_name := str_of "AA/b"; entry_offset := 156; entry_size := 4;
      entry_type := mask_type |};
   {| entry_name := str_of "AA/c"; entry_offset := 160; entry_size := 4;
      entry_type := mask_type |};
   {| entry_name := str_of "BB/d"; entry_offset := 164; entry_size := 4;
      entry_type := mask_type |};
   {| entry_name := str_of "BB/e"; entry_offset := 168; entry_size := 4;
      entry_type := mask_type |}].

(** ** Archives that [pack_files] writes and [try_open] reads back *)

(** A name that fits the 16-byte field: 1 to 16 ASCII characters, none
    of them NUL. *)
Definition name_ok (name : str) : Prop :=
  (1 ≤ length name ≤ 16)%nat ∧ Forall (λ c, 1 ≤ c < 128) name.

#[global] Instance name_ok_dec (name : str) : Decision (name_ok name).
Proof. unfold name_ok. apply _. Defined.

(** The size of the archive laid out for a listing: header, index and
    payloads. *)
Definition archive_size (listing : list (str * bytes)) : nat :=
  (0x10 + length listing * 0x18 + length (mjoin (snd <$> listing)))%nat.

(** The length of the last file of a listing, 0 for an empty listing. *)
Definition last_size (listing : list (str * bytes)) : nat :=
  from_option (λ e, length e.2) 0%nat (last listing).

(** The index region for entries with their offsets. *)
Definition index_bytes (placed : list (str * bytes * nat)) : bytes :=
  mjoin ((λ '(name, data, offset),
            record_bytes name (Z.of_nat offset) (Z.of_nat (length data)))
         <$> placed).

(** What resolution has to give back for a listing: the recorded names
    and, in the byte range of each entry, the payload. *)
Definition resolves (content : bytes) (e : entry) (item : str * bytes) : Prop :=
  entry_name e = packed_name item.1
  ∧ slice content (Z.to_nat (entry_offset e))
      (Z.to_nat (entry_offset e + entry_size e)) = item.2.

(** The reading of the build-then-resolve sentence: every listing, packed
    and resolved again, gives one entry per file with its name and
    payload. *)
Definition pack_then_open_always (lower : str → str)
    (cp932 : Z → option bytes) : Prop :=
  ∀ (listing : list (str * bytes)) (archive_path : str),
    ∃ content entries,
      pack_files cp932 listing = Return content
      ∧ try_open lower {| file_path := archive_path; file_content := content |}
        = Return (Some {| arc_file := archive_path; arc_entries := entries |})
      ∧ Forall2 (resolves content) entries listing.

(** Two files as a walk lists them, and one whose name without extension
    has 17 characters. *)
Definition sample_listing : list (str * bytes) :=
  [(str_of "a.txt", [1; 2; 3; 4; 5]); (str_of "sub/b.x.bin", [9; 8; 7; 6])].

Definition long_name_listing : list (str * bytes) :=
  [(str_of "ABCDEFGHIJKLMNOPQ.txt", [1; 2; 3; 4])].

(** ** The channel swaps of the two converters *)

(** [range(0, n, 3)] *)
Definition range3 (n : nat) : list nat := (λ k, 3 * k)%nat <$> seq 0 ((n + 2) / 3).

(** CM2Png.py, for the palette and for 24-bit pixels:
    [b''.join(data[i:i+3][::-1] for i in range(0, len(data), 3))]. *)
Definition swap_reversed (data : bytes) : bytes :=
  mjoin ((λ i, reverse (slice data i (i + 3))) <$> range3 (length data)).

(** Png2Cm.py, for 24-bit pixels:
    [b''.join(data[i+2:i+3] + data[i+1:i+2] + data[i:i+1]
              for i in range(0, len(data), 3))]. *)
Definition swap_indexed (data : bytes) : bytes :=
  mjoin ((λ i, slice data (i + 2) (i + 3) ++ slice data (i + 1) (i + 2)
               ++ slice data i (i + 1)) <$> range3 (length data)).

(** The swap by recursion on the buffer: each whole triple is reversed,
    and so are the one or two bytes that may be left at the end. *)
Fixpoint swap3 (data : bytes) : bytes :=
  match data with
  | a :: b :: c :: rest => c :: b :: a :: swap3 rest
  | [a; b] => [b; a]
  | _ => data
  end.

(** ** The converters, between the image library and the file *)

(** Png2Cm.py, [convert_png_to_cm] for an image whose mode is not ['P']
    (so [bpp = 24], [colors = 0] and [palette = None]), from
    [image_data = img.tobytes()] on: the content of the file written. *)
Definition convert_png_to_cm_rgb (img_width img_height : Z) (image_data : bytes)
    : outcome bytes :=
  let bpp := 24 in
  let colors := 0 in
  let image_data := swap_indexed image_data in
  compressed_data ←! rle_encode image_data (Z.to_nat (bpp `div` 8));
  let data_offset := 0x20 + 0 in
  let metadata :=
    {| size := data_offset + Z.of_nat (length compressed_data);
       width := img_width;
       height := img_height;
       colors := colors;
       bpp := bpp;
       is_compressed := true;
       data_offset := data_offset;
       data_length := Z.of_nat (length compressed_data) |} in
  file ←! write_cm_metadata [] metadata;
  Return (file ++ compressed_data).

(** What [convert_cm_to_png] hands to the image library: the arguments
    of [Image.frombytes] and the palette read. *)
Record image_args := {
  img_mode : str;
  img_size : Z * Z;
  img_data : bytes;
  img_palette : option bytes
}.

(** CM2Png.py, [convert_cm_to_png] from the open file to the call of
    [Image.frombytes]; [None] stands for the return after
    "Invalid CM file". *)
Definition convert_cm_to_png_image (content : bytes) : outcome (option image_args) :=
  metadata ←! read_cm_metadata content;
  match metadata with
  | None => Return None
  | Some metadata =>
    let palette :=
      if bool_decide (info_colors metadata > 0) then
        Some (swap_reversed
                (slice content 0x20 (0x20 + Z.to_nat (info_colors metadata * 3))))
      else None in
    let image_data :=
      slice content (Z.to_nat (info_data_offset metadata))
        (Z.to_nat (info_data_offset metadata)
         + Z.to_nat (info_data_length metadata)) in
    image_data ←!
      (if info_is_compressed metadata
       then rle_decode image_data (Z.to_nat (info_bpp metadata `div` 8))
       else Return image_data);
    let '(image_data, mode) :=
      if bool_decide (info_bpp metadata = 24)
      then (swap_reversed image_data, str_of "RGB")
      else (image_data, str_of "P") in
    Return (Some {| img_mode := mode;
                    img_size := (info_width metadata, info_height metadata);
                    img_data := image_data;
                    img_palette := palette |})
  end.

(** The extensions that [detect_file_type] can answer. *)
Definition known_types : list str :=
  [str_of ".cm"; str_of ".am"; str_of ".bmp"; str_of ".msk"; str_of ".bin"].

(** The answer of [detect_file_type] for the first two bytes of the
    signature. *)
Definition type_of_signature (b0 b1 : Z) : str :=
  if bool_decide (b0 = 0x43 ∧ b1 = 0x4D) then str_of ".cm"
  else if bool_decide (b0 = 0x41 ∧ b1 = 0x4D) then str_of ".am"
  else if bool_decide (b0 = 0x42 ∧ b1 = 0x4D) then str_of ".bmp"
  else if bool_decide (b0 = 0xB4 ∧ b1 = 0x10) then str_of ".msk"
  else str_of ".bin".

(** [relpath.replace("\\", "/")] *)
Definition to_slashes (relpath : str) : str :=
  (λ c, if bool_decide (c = backslash) then slash else c) <$> relpath.



(** * Properties of the run-length codec *)

Section slices.
Implicit Types (d pre rest : bytes) (a b c : nat).

Lemma slice_app_shift pre rest a b :
  slice (pre ++ rest) (length pre + a) (length pre + b) = slice rest a b.
Proof.
  unfold slice. rewrite drop_app_add. f_equal. lia.
Qed.

Lemma slice_length d a b :
  (a ≤ b)%nat → (b ≤ length d)%nat → length (slice d a b) = (b - a)%nat.
Proof.
  intros Hab Hb. unfold slice. rewrite length_take, length_drop. lia.
Qed.

Lemma slice_split d a b c :
  (a ≤ b)%nat → (b ≤ c)%nat → slice d a c = slice d a b ++ slice d b c.
Proof.
  intros Hab Hbc. unfold slice.
  replace (c - a)%nat with ((b - a) + (c - b))%nat by lia.
  rewrite <- take_take_drop, drop_drop.
  by replace (a + (b - a))%nat with b by lia.
Qed.

Lemma slice_drop d a b :
  (a ≤ b)%nat → slice d a b ++ drop b d = drop a d.
Proof.
  intros Hab. unfold slice.
  rewrite <- (take_drop (b - a) (drop a d)) at 2.
  rewrite drop_drop. by replace (a + (b - a))%nat with b by lia.
Qed.

Lemma slice_0_app pre rest : slice (pre ++ rest) 0 (length pre) = pre.
Proof.
  unfold slice. rewrite drop_0, Nat.sub_0_r. apply take_app_length.
Qed.
End slices.

Lemma bytes_mul_S_r (px : bytes) (r : nat) :
  bytes_mul px (S r) = bytes_mul px r ++ px.
Proof.
  unfold bytes_mul. rewrite replicate_S_end, join_app. simpl.
  by rewrite app_nil_r.
Qed.

(** The tag of a repeat segment: its high bit is set and the low seven
    bits give the count back. Checked over the 128 counts. *)
Lemma repeat_tag (c : nat) :
  (c < 128)%nat →
  0x80 ≤ Z.lor 0x80 (Z.of_nat c) < 256
  ∧ Z.to_nat (Z.land (Z.lor 0x80 (Z.of_nat c)) 0x7f) = c.
Proof.
  intros Hc.
  assert (Forall (λ c : nat, 0x80 ≤ Z.lor 0x80 (Z.of_nat c) < 256
    ∧ Z.to_nat (Z.land (Z.lor 0x80 (Z.of_nat c)) 0x7f) = c) (seq 0 128)) as Hall.
  { apply (bool_decide_unpack _). by vm_compute. }
  rewrite Forall_forall in Hall. apply Hall, elem_of_seq. lia.
Qed.

(** ** The decoder on a stream of well-shaped segments *)

Lemma stream_cons seg segs : stream (seg :: segs) = seg_bytes seg ++ stream segs.
Proof. done. Qed.

Lemma pixels_cons seg segs : pixels (seg :: segs) = seg_pixels seg ++ pixels segs.
Proof. done. Qed.

Lemma rle_decode_loop_done fuel input p i out :
  ¬ (i < length input)%nat → rle_decode_loop fuel input p i out = Return out.
Proof. intros Hi. destruct fuel; simpl; by rewrite bool_decide_eq_false_2. Qed.

Lemma rle_decode_loop_step fuel input p i out :
  (i < length input)%nat →
  rle_decode_loop (S fuel) input p i out
  = '(i', output') ←! rle_decode_body input p i out;
    rle_decode_loop fuel input p i' output'.
Proof. intros Hi. simpl. by rewrite bool_decide_eq_true_2. Qed.

Lemma rle_decode_loop_0 input p i out :
  (i < length input)%nat → rle_decode_loop 0 input p i out = Timeout.
Proof. intros Hi. simpl. by rewrite bool_decide_eq_true_2. Qed.

Lemma rle_decode_body_literal input p i out code :
  input !! i = Some code → code < 0x80 →
  rle_decode_body input p i out
  = Return ((i + 1 + Z.to_nat code * p)%nat,
            out ++ slice input (i + 1) (i + 1 + Z.to_nat code * p)).
Proof.
  intros Hi Hcode. unfold rle_decode_body. rewrite Hi.
  by rewrite bool_decide_eq_true_2.
Qed.

Lemma rle_decode_body_repeat input p i out code :
  input !! i = Some code → 0x80 ≤ code →
  rle_decode_body input p i out
  = Return ((i + 1 + p)%nat,
            out ++ bytes_mul (slice input (i + 1) (i + 1 + p))
                     (Z.to_nat (Z.land code 0x7f))).
Proof.
  intros Hi Hcode. unfold rle_decode_body. rewrite Hi.
  rewrite bool_decide_eq_false_2 by lia. done.
Qed.

Lemma rle_decode_body_shift pre rest p i out :
  rle_decode_body (pre ++ rest) p (length pre + i) out
  = '(i', out') ←! rle_decode_body rest p i out;
    Return ((length pre + i')%nat, out').
Proof.
  unfold rle_decode_body.
  rewrite lookup_app_r by lia.
  replace (length pre + i - length pre)%nat with i by lia.
  destruct (rest !! i) as [code|]; [|done].
  simpl. case_bool_decide; simpl.
  - replace (length pre + i + 1 + Z.to_nat code * p)%nat
      with (length pre + (i + 1 + Z.to_nat code * p))%nat by lia.
    replace (length pre + i + 1)%nat with (length pre + (i + 1))%nat by lia.
    by rewrite slice_app_shift.
  - replace (length pre + i + 1 + p)%nat
      with (length pre + (i + 1 + p))%nat by lia.
    replace (length pre + i + 1)%nat with (length pre + (i + 1))%nat by lia.
    by rewrite slice_app_shift.
Qed.

(** Decoding from the end of a prefix does not look at the prefix. *)
Lemma rle_decode_loop_shift fuel pre rest p i out :
  rle_decode_loop fuel (pre ++ rest) p (length pre + i) out
  = rle_decode_loop fuel rest p i out.
Proof.
  revert i out. induction fuel as [|fuel IH]; intros i out.
  - destruct (decide (i < length rest)%nat).
    + rewrite !rle_decode_loop_0; [done..|rewrite length_app; lia].
    + rewrite !rle_decode_loop_done; [done..|rewrite length_app; lia].
  - destruct (decide (i < length rest)%nat).
    + rewrite !rle_decode_loop_step; [|done|rewrite length_app; lia].
      rewrite rle_decode_body_shift.
      destruct (rle_decode_body rest p i out) as [[i' out']| |]; simpl; auto.
    + rewrite !rle_decode_loop_done; [done..|rewrite length_app; lia].
Qed.

Lemma rle_decode_loop_past_segment fuel p tag payload rest out :
  rle_decode_loop fuel (tag :: payload ++ rest) p (S (length payload)) out
  = rle_decode_loop fuel rest p 0 out.
Proof.
  rewrite <- (rle_decode_loop_shift fuel (tag :: payload) rest p 0 out).
  simpl. by rewrite Nat.add_0_r.
Qed.

Lemma slice_payload (tag : Z) payload rest :
  slice (tag :: payload ++ rest) 1 (S (length payload)) = payload.
Proof. unfold slice. simpl. rewrite Nat.sub_0_r. apply take_app_length. Qed.

Lemma rle_decode_loop_stream p segs :
  Forall (seg_shape p) segs →
  ∀ fuel out, (length (stream segs) ≤ fuel)%nat →
    rle_decode_loop fuel (stream segs) p 0 out = Return (out ++ pixels segs).
Proof.
  induction 1 as [|seg segs Hseg _ IH]; intros fuel out Hfuel.
  - rewrite rle_decode_loop_done by (simpl; lia). by rewrite app_nil_r.
  - rewrite stream_cons, pixels_cons. rewrite stream_cons, length_app in Hfuel.
    destruct seg as [c pl|c px]; simpl in Hseg, Hfuel; destruct Hseg as [Hc Hlen];
      (destruct fuel as [|fuel]; [lia|]);
      rewrite rle_decode_loop_step by (simpl; lia).
    + rewrite (rle_decode_body_literal _ _ _ _ (Z.of_nat c)) by (done || lia).
      rewrite Nat2Z.id, <- Hlen. simpl.
      rewrite rle_decode_loop_past_segment, slice_payload, IH by lia.
      by rewrite <- (assoc (++)).
    + destruct (repeat_tag c Hc) as [Htag Hcount].
      rewrite (rle_decode_body_repeat _ _ _ _ (Z.lor 0x80 (Z.of_nat c)))
        by (done || lia).
      rewrite Hcount. subst p. simpl.
      rewrite rle_decode_loop_past_segment, slice_payload, IH by lia.
      by rewrite <- (assoc (++)).
Qed.

Lemma rle_decode_stream p segs :
  Forall (seg_shape p) segs → rle_decode (stream segs) p = Return (pixels segs).
Proof.
  intros Hsegs. unfold rle_decode.
  by rewrite (rle_decode_loop_stream p segs Hsegs).
Qed.

(** Reading a stream of well-shaped segments gives the segments back, so
    the segmentation of a stream is determined by its bytes. *)
Lemma parse_segments_stream p segs :
  Forall (seg_shape p) segs →
  ∀ fuel, (length (stream segs) ≤ fuel)%nat →
    parse_segments fuel (stream segs) p = segs.
Proof.
  induction 1 as [|seg segs Hseg _ IH]; intros fuel Hfuel.
  - by destruct fuel.
  - rewrite stream_cons. rewrite stream_cons, length_app in Hfuel.
    destruct seg as [c pl|c px]; simpl in Hseg, Hfuel; destruct Hseg as [Hc Hlen];
      (destruct fuel as [|fuel]; [lia|]); simpl.
    + case_bool_decide; [|lia].
      rewrite Nat2Z.id, <- Hlen, take_app_length, drop_app_length, IH by lia.
      done.
    + destruct (repeat_tag c Hc) as [Htag Hcount].
      case_bool_decide; [lia|].
      rewrite Hcount. subst p.
      by rewrite take_app_length, drop_app_length, IH by lia.
Qed.

(** ** The two scans of the encoder *)

Lemma run_scan_S fuel d p s i :
  run_scan (S fuel) d p s i
  = if bool_decide (i + p ≤ length d)%nat
       && bool_decide (i - s < 127 * p)%nat
    then if bool_decide (slice d i (i + p) ≠ slice d s (s + p)) then i
         else run_scan fuel d p s (i + p)
    else i.
Proof. done. Qed.

(** The scan leaves its loop where it stands. *)
Ltac scan_stops_at m := exists m; repeat split; intros; lia.

Section scans.
Variables (d : bytes) (p s : nat).
Hypothesis Hp : (1 ≤ p)%nat.

(** Entered [m] pixels after [run_start], the run scan stops [m']
    pixels after it, never beyond 127, inside the buffer if it moved,
    and over pixels that all equal the first. *)
Lemma run_scan_spec fuel m :
  (m ≤ 127)%nat →
  ∃ m', run_scan fuel d p s (s + m * p) = (s + m' * p)%nat
    ∧ (m ≤ m' ≤ 127)%nat
    ∧ (m < m' → s + m' * p ≤ length d)%nat
    ∧ ∀ j, (m ≤ j < m')%nat →
        slice d (s + j * p) (s + j * p + p) = slice d s (s + p).
Proof.
  revert m. induction fuel as [|fuel IH]; intros m Hm; simpl.
  { scan_stops_at m. }
  destruct (bool_decide (s + m * p + p ≤ length d)%nat) eqn:Hin; simpl;
    [apply bool_decide_eq_true_1 in Hin
    |scan_stops_at m].
  case_bool_decide as Hcap; simpl;
    [|scan_stops_at m].
  case_bool_decide as Hne; simpl;
    [scan_stops_at m|].
  assert (m < 127)%nat as Hm' by (apply (Nat.mul_lt_mono_pos_r p); lia).
  replace (s + m * p + p)%nat with (s + S m * p)%nat by lia.
  destruct (IH (S m)) as (m' & Hrun & Hrange & Hlen & Hpx); [lia|].
  exists m'. repeat split; try lia.
  - intros _. destruct (decide (S m = m')) as [<-|]; [|apply Hlen]; lia.
  - intros j Hj. destruct (decide (j = m)) as [->|]; [|apply Hpx; lia].
    by destruct (decide (slice d (s + m * p) (s + m * p + p)
                         = slice d s (s + p))).
Qed.

Lemma slice_run r :
  (∀ j, (j < r)%nat → slice d (s + j * p) (s + j * p + p) = slice d s (s + p)) →
  slice d s (s + r * p) = bytes_mul (slice d s (s + p)) r.
Proof.
  induction r as [|r IHr]; intros Hall.
  - unfold slice. rewrite Nat.mul_0_l, Nat.add_0_r, Nat.sub_diag. done.
  - rewrite bytes_mul_S_r, <- IHr by (intros; apply Hall; lia).
    rewrite <- (Hall r) by lia.
    replace (s + S r * p)%nat with (s + r * p + p)%nat by lia.
    apply slice_split; lia.
Qed.

(** From [run_start] itself, with a whole pixel there, the run scan
    counts that pixel: the run length is at least 1. *)
Lemma run_scan_start fuel :
  (1 ≤ fuel)%nat → (s + p ≤ length d)%nat →
  ∃ r, run_scan fuel d p s s = (s + r * p)%nat
    ∧ (1 ≤ r ≤ 127)%nat
    ∧ (s + r * p ≤ length d)%nat
    ∧ slice d s (s + r * p) = bytes_mul (slice d s (s + p)) r.
Proof.
  intros Hfuel Hin. destruct fuel as [|fuel]; [lia|].
  assert (run_scan (S fuel) d p s s = run_scan fuel d p s (s + 1 * p)) as ->.
  { rewrite run_scan_S.
    rewrite bool_decide_eq_true_2 by lia.
    rewrite bool_decide_eq_true_2 by lia.
    rewrite bool_decide_eq_false_2 by (intros Hne; by apply Hne).
    cbn [andb]. f_equal. lia. }
  destruct (run_scan_spec fuel 1) as (r & Hrun & Hrange & Hlen & Hpx); [lia|].
  exists r. split; [done|]. split; [lia|].
  assert (s + r * p ≤ length d)%nat as Hr.
  { destruct (decide (r = 1%nat)) as [->|]; [|apply Hlen]; lia. }
  split; [done|].
  assert (∀ j, (j < r)%nat →
    slice d (s + j * p) (s + j * p + p) = slice d s (s + p)) as Hall.
  { intros j Hj. destruct j as [|j]; [|apply Hpx; lia].
    by rewrite Nat.mul_0_l, Nat.add_0_r. }
  by apply slice_run.
Qed.

Lemma literal_scan_spec fuel m :
  (m ≤ 127)%nat →
  ∃ m', literal_scan fuel d p s (s + m * p) = (s + m' * p)%nat
    ∧ (m ≤ m' ≤ 127)%nat
    ∧ (m < m' → s + m' * p ≤ length d)%nat.
Proof.
  revert m. induction fuel as [|fuel IH]; intros m Hm; simpl.
  { scan_stops_at m. }
  destruct (bool_decide (s + m * p + p ≤ length d)%nat) eqn:Hin; simpl;
    [apply bool_decide_eq_true_1 in Hin|scan_stops_at m].
  case_bool_decide as Hcap; simpl; [|scan_stops_at m].
  match goal with |- context [if ?b then _ else _] => destruct b end;
    [scan_stops_at m|].
  assert (m < 127)%nat as Hm' by (apply (Nat.mul_lt_mono_pos_r p); lia).
  replace (s + m * p + p)%nat with (s + S m * p)%nat by lia.
  destruct (IH (S m)) as (m' & Hrun & Hrange & Hlen); [lia|].
  exists m'. repeat split; try lia.
  intros _. destruct (decide (S m = m')) as [<-|]; [|apply Hlen]; lia.
Qed.

Lemma literal_scan_start fuel :
  (s + p ≤ length d)%nat →
  ∃ l, literal_scan fuel d p s (s + p) = (s + l * p)%nat
    ∧ (1 ≤ l ≤ 127)%nat
    ∧ (s + l * p ≤ length d)%nat.
Proof.
  intros Hin.
  destruct (literal_scan_spec fuel 1) as (l & Hscan & Hrange & Hlen); [lia|].
  exists l. rewrite Nat.mul_1_l in Hscan. split; [done|]. split; [lia|].
  destruct (decide (l = 1%nat)) as [->|]; [|apply Hlen]; lia.
Qed.
End scans.

(** ** The encoder emits well-shaped segments that spell out its input *)

Lemma rle_encode_loop_done fuel d p i out :
  ¬ (i < length d)%nat → rle_encode_loop fuel d p i out = Return out.
Proof.
  intros Hi. destruct fuel; cbn [rle_encode_loop];
    by rewrite bool_decide_eq_false_2.
Qed.

Lemma rle_encode_loop_segments d p n :
  (1 ≤ p)%nat → length d = (n * p)%nat →
  ∀ fuel k out, (k ≤ n)%nat → (n - k ≤ fuel)%nat →
    ∃ segs, rle_encode_loop fuel d p (k * p) out = Return (out ++ stream segs)
      ∧ Forall (seg_shape p) segs
      ∧ Forall seg_count_ok segs
      ∧ pixels segs = drop (k * p) d.
Proof.
  intros Hp Hlen. induction fuel as [|fuel IH]; intros k out Hk Hfuel.
  { assert (k = n) as -> by lia.
    exists []. rewrite rle_encode_loop_done by lia.
    rewrite drop_ge by lia. by rewrite app_nil_r. }
  destruct (decide (k = n)) as [->|Hkn].
  { exists []. rewrite rle_encode_loop_done by lia.
    rewrite drop_ge by lia. by rewrite app_nil_r. }
  assert (S k * p ≤ n * p)%nat by (apply Nat.mul_le_mono_r; lia).
  assert (k * p + p ≤ length d)%nat as Hin by lia.
  cbn [rle_encode_loop]. rewrite bool_decide_eq_true_2 by lia.
  rewrite (bool_decide_eq_false_2 (p = 0%nat)) by lia.
  destruct (run_scan_start d p (k * p) Hp 127 ltac:(lia) Hin)
    as (r & -> & Hr & Hrin & Hrun).
  replace (k * p + r * p - k * p)%nat with (r * p)%nat by lia.
  rewrite Nat.div_mul by lia.
  case_bool_decide as Hrun1.
  - (* a repeat segment of [r] pixels *)
    assert (k + r ≤ n)%nat by (apply (Nat.mul_le_mono_pos_r _ _ p); lia).
    replace (k * p + r * p)%nat with ((k + r) * p)%nat in * by lia.
    destruct (IH (k + r)%nat
      (out ++ [Z.lor 0x80 (Z.of_nat r)] ++ slice d (k * p) (k * p + p)))
      as (segs & -> & Hshape & Hcount & Hpx); [lia..|].
    exists (Repeat r (slice d (k * p) (k * p + p)) :: segs).
    split; [by rewrite stream_cons, <- !(assoc (++))|].
    split; [constructor; [|done]|split; [constructor; [|done]|]].
    + split; [lia|]. rewrite slice_length; lia.
    + simpl. lia.
    + rewrite pixels_cons, Hpx. simpl. rewrite <- Hrun.
      apply slice_drop. lia.
  - (* a literal segment of [l] pixels *)
    destruct (literal_scan_start d p (k * p) Hp 127 Hin) as (l & -> & Hl & Hlin).
    replace (k * p + l * p - k * p)%nat with (l * p)%nat by lia.
    rewrite Nat.div_mul by lia.
    assert (k + l ≤ n)%nat by (apply (Nat.mul_le_mono_pos_r _ _ p); lia).
    replace (k * p + l * p)%nat with ((k + l) * p)%nat in * by lia.
    destruct (IH (k + l)%nat
      (out ++ [Z.of_nat l] ++ slice d (k * p) ((k + l) * p)))
      as (segs & -> & Hshape & Hcount & Hpx); [lia..|].
    exists (Literal l (slice d (k * p) ((k + l) * p)) :: segs).
    split; [by rewrite stream_cons, <- !(assoc (++))|].
    split; [constructor; [|done]|split; [constructor; [|done]|]].
    + split; [lia|]. rewrite slice_length; lia.
    + simpl. lia.
    + rewrite pixels_cons, Hpx. simpl. apply slice_drop. lia.
Qed.

Lemma rle_encode_segments d p :
  (1 ≤ p)%nat → (length d `mod` p = 0)%nat →
  ∃ segs, rle_encode d p = Return (stream segs)
    ∧ Forall (seg_shape p) segs
    ∧ Forall seg_count_ok segs
    ∧ pixels segs = d.
Proof.
  intros Hp Hmod.
  assert (length d = (length d / p) * p)%nat as Hlen.
  { rewrite (Nat.div_mod (length d) p) at 1 by lia. lia. }
  set (n := (length d / p)%nat) in *.
  assert (n * 1 ≤ n * p)%nat by (apply Nat.mul_le_mono_l; lia).
  destruct (rle_encode_loop_segments d p n Hp Hlen (length d) 0 [])
    as (segs & Henc & Hshape & Hcount & Hpx); [lia|lia|].
  exists segs. by repeat split.
Qed.

(** C1. For every byte buffer [b] and every [pixel_size >= 1] with
    [len(b)] a multiple of [pixel_size], decoding the output of the
    run-length encoder reproduces [b] exactly:
    [rle_decode(rle_encode(b, pixel_size), pixel_size) == b]. *)
Theorem rle_round_trip (b : bytes) (pixel_size : nat) :
  (1 ≤ pixel_size)%nat → (length b `mod` pixel_size = 0)%nat →
  ∃ encoded, rle_encode b pixel_size = Return encoded
    ∧ rle_decode encoded pixel_size = Return b.
Proof.
  intros Hp Hmod.
  destruct (rle_encode_segments b pixel_size Hp Hmod)
    as (segs & Henc & Hshape & _ & Hpx).
  exists (stream segs). split; [done|].
  by rewrite rle_decode_stream, Hpx.
Qed.

Lemma rle_round_trip_witness :
  ∃ encoded, rle_encode [1; 2; 1; 2; 1; 2; 3; 4; 5; 6; 5; 6] 2 = Return encoded
    ∧ rle_decode encoded 2 = Return [1; 2; 1; 2; 1; 2; 3; 4; 5; 6; 5; 6].
Proof.
  apply (rle_round_trip [1; 2; 1; 2; 1; 2; 3; 4; 5; 6; 5; 6] 2);
    [lia|reflexivity].
Defined.

(** C8. For every input buffer [b] with [len(b)] a multiple of
    [pixel_size >= 1], every segment of the byte stream produced by
    [rle_encode] has its count in range: a repeat segment's count is
    between 2 and 127 inclusive, a literal segment's count between 1 and
    127 inclusive. *)
Theorem rle_encode_segment_counts (b : bytes) (pixel_size : nat) :
  (1 ≤ pixel_size)%nat → (length b `mod` pixel_size = 0)%nat →
  ∃ encoded, rle_encode b pixel_size = Return encoded
    ∧ Forall seg_count_ok (segments_of encoded pixel_size).
Proof.
  intros Hp Hmod.
  destruct (rle_encode_segments b pixel_size Hp Hmod)
    as (segs & Henc & Hshape & Hcount & _).
  exists (stream segs). split; [done|].
  unfold segments_of. by rewrite (parse_segments_stream pixel_size segs).
Qed.

Lemma rle_encode_segment_counts_witness :
  ∃ encoded, rle_encode [7; 7; 7; 1; 2; 3; 3] 1 = Return encoded
    ∧ Forall seg_count_ok (segments_of encoded 1).
Proof.
  apply (rle_encode_segment_counts [7; 7; 7; 1; 2; 3; 3] 1); [lia|reflexivity].
Defined.

(** ** The decoder on arbitrary input *)

Lemma rle_decode_body_progress input p i out :
  (i < length input)%nat →
  ∃ i' out', rle_decode_body input p i out = Return (i', out') ∧ (i < i')%nat.
Proof.
  intros Hi. unfold rle_decode_body.
  destruct (lookup_lt_is_Some_2 input i Hi) as [code ->].
  simpl. case_bool_decide; eexists _, _; (split; [done|lia]).
Qed.

Lemma rle_decode_loop_returns input p fuel i out :
  (length input - i ≤ fuel)%nat →
  ∃ out', rle_decode_loop fuel input p i out = Return out'.
Proof.
  revert i out. induction fuel as [|fuel IH]; intros i out Hfuel.
  { exists out. apply rle_decode_loop_done. lia. }
  destruct (decide (i < length input)%nat) as [Hi|Hi];
    [|exists out; by apply rle_decode_loop_done].
  rewrite rle_decode_loop_step by done.
  destruct (rle_decode_body_progress input p i out Hi) as (i' & out' & -> & Hlt).
  simpl. apply IH. lia.
Qed.

Lemma rle_decode_loop_fuel_S input p fuel i out result :
  rle_decode_loop fuel input p i out = Return result →
  rle_decode_loop (S fuel) input p i out = Return result.
Proof.
  revert i out. induction fuel as [|fuel IH]; intros i out.
  - destruct (decide (i < length input)%nat) as [Hi|Hi].
    + by rewrite rle_decode_loop_0.
    + by rewrite !rle_decode_loop_done.
  - destruct (decide (i < length input)%nat) as [Hi|Hi].
    + rewrite (rle_decode_loop_step (S fuel)), (rle_decode_loop_step fuel) by done.
      destruct (rle_decode_body input p i out) as [[i' out']| |];
        cbn [bind]; auto.
    + by rewrite !rle_decode_loop_done.
Qed.

(** The budget of [rle_decode] is enough: a larger one changes nothing. *)
Lemma rle_decode_fuel input p fuel :
  (length input ≤ fuel)%nat →
  rle_decode_loop fuel input p 0 [] = rle_decode input p.
Proof.
  intros Hfuel. unfold rle_decode.
  destruct (rle_decode_loop_returns input p (length input) 0 []) as [out Hout];
    [lia|].
  rewrite Hout. induction Hfuel as [|fuel _ IH]; [done|].
  by apply rle_decode_loop_fuel_S.
Qed.

(** The output of the decoder is the pixels of the segments read, the
    last of which is cut at the end of the input. *)
Lemma rle_decode_loop_parse p fuel :
  ∀ input out, (length input ≤ fuel)%nat →
    rle_decode_loop fuel input p 0 out
    = Return (out ++ pixels (parse_segments fuel input p)).
Proof.
  induction fuel as [|fuel IH]; intros input out Hfuel.
  { rewrite rle_decode_loop_done by lia. simpl. by rewrite app_nil_r. }
  destruct input as [|code rest].
  { rewrite rle_decode_loop_done by (simpl; lia). simpl. by rewrite app_nil_r. }
  simpl in Hfuel. rewrite rle_decode_loop_step by (simpl; lia).
  assert (∀ n out', rle_decode_loop fuel (code :: rest) p (S n) out'
    = rle_decode_loop fuel (drop n rest) p 0 out') as Hskip.
  { intros n out'. destruct (decide (n ≤ length rest)%nat) as [Hn|Hn].
    - rewrite <- (take_drop n rest) at 1.
      rewrite <- (rle_decode_loop_past_segment fuel p code (take n rest)).
      by rewrite length_take_le.
    - rewrite drop_ge by lia.
      rewrite !rle_decode_loop_done by (simpl; lia). done. }
  unfold rle_decode_body. cbn [lookup list_lookup parse_segments].
  case_bool_decide; cbn [bind].
  - replace (0 + 1 + Z.to_nat code * p)%nat with (S (Z.to_nat code * p)) by lia.
    rewrite Hskip, IH by (rewrite length_drop; lia).
    rewrite pixels_cons, <- (assoc (++)). f_equal. f_equal. f_equal.
    unfold slice. simpl. f_equal. lia.
  - replace (0 + 1 + p)%nat with (S p) by lia.
    rewrite Hskip, IH by (rewrite length_drop; lia).
    rewrite pixels_cons, <- (assoc (++)). f_equal. f_equal. f_equal.
    unfold slice. simpl. do 2 f_equal. lia.
Qed.

(** C2, as amended. [rle_decode] surfaces no error: for every input and
    pixel size it returns the pixels of the segments it reads, and a
    segment whose declared run passes the end of the input contributes
    only the bytes that remain (a literal the remaining bytes, a repeat
    the short pixel repeated [count] times). *)
Theorem rle_decode_truncates (input_data : bytes) (pixel_size : nat) :
  rle_decode input_data pixel_size
  = Return (pixels (segments_of input_data pixel_size)).
Proof.
  unfold rle_decode, segments_of. by rewrite rle_decode_loop_parse.
Qed.

(** C2, as stated, fails: a literal tag declaring five pixels over one
    remaining byte, and a repeat tag over half a pixel, are decoded to a
    shortened buffer and no error is raised. *)
Lemma rle_decode_overrun_counterexample :
  malformed [5; 1] 1 = true
  ∧ rle_decode [5; 1] 1 = Return [1]
  ∧ malformed [0x83; 9] 2 = true
  ∧ rle_decode [0x83; 9] 2 = Return [9; 9; 9]
  ∧ ¬ decode_fails_closed.
Proof.
  repeat split; try reflexivity.
  intros Hclosed.
  destruct (Hclosed [5; 1] 1%nat) as [e He]; try done.
  repeat constructor; lia.
Qed.

(** C9. For every input byte string, malformed or not, and every pixel
    size, [rle_decode] terminates: the loop returns within one iteration
    per input byte (and with any larger budget gives the same result);
    each iteration run inside the input returns a strictly larger
    position; and a repeat tag with count 0 consumes its pixel and leaves
    the output unchanged, without an error. *)
Theorem rle_decode_terminates (input_data : bytes) (pixel_size : nat) :
  (∃ output, rle_decode input_data pixel_size = Return output
     ∧ ∀ fuel, (length input_data ≤ fuel)%nat →
         rle_decode_loop fuel input_data pixel_size 0 [] = Return output)
  ∧ (∀ i output, (i < length input_data)%nat →
       ∃ i' output',
         rle_decode_body input_data pixel_size i output = Return (i', output')
         ∧ (i < i')%nat)
  ∧ (∀ i output, input_data !! i = Some 0x80 →
       rle_decode_body input_data pixel_size i output
       = Return ((i + 1 + pixel_size)%nat, output)).
Proof.
  split; [|split].
  - destruct (rle_decode_loop_returns input_data pixel_size
                (length input_data) 0 []) as [output Hout]; [lia|].
    exists output. split; [done|].
    intros fuel Hfuel. by rewrite rle_decode_fuel.
  - intros i output Hi. by apply rle_decode_body_progress.
  - intros i output Hi.
    rewrite (rle_decode_body_repeat _ _ _ _ 0x80) by (done || lia).
    simpl. by rewrite app_nil_r.
Qed.

(** ** Budgets of the encoder's loops, and the bytes it appends *)

Lemma literal_scan_S fuel d p s i :
  literal_scan (S fuel) d p s i
  = if bool_decide (i + p ≤ length d)%nat
       && bool_decide (i - s < 127 * p)%nat
    then if bool_decide (i + p * 2 ≤ length d)%nat
            && bool_decide (slice d i (i + p) = slice d (i + p) (i + p * 2))
            && bool_decide (slice d (i + p) (i + p * 2)
                            = slice d (i + p * 2) (i + p * 3))
         then i
         else literal_scan fuel d p s (i + p)
    else i.
Proof. done. Qed.

(** Once [m] pixels from the start with [127 - m] iterations at most to
    go, one more unit of budget changes nothing: the guard
    [i - run_start < 127 * pixel_size] has closed the loop by then. *)
Lemma run_scan_fuel_S d p s fuel m :
  (127 ≤ m + fuel)%nat →
  run_scan (S fuel) d p s (s + m * p) = run_scan fuel d p s (s + m * p).
Proof.
  revert m. induction fuel as [|fuel IH]; intros m Hm.
  - rewrite run_scan_S. cbn [run_scan].
    assert (127 * p ≤ m * p)%nat by (apply Nat.mul_le_mono_r; lia).
    rewrite (bool_decide_eq_false_2 (_ < _)%nat) by lia.
    by rewrite andb_false_r.
  - rewrite (run_scan_S (S fuel)), (run_scan_S fuel d p s (s + m * p)).
    replace (s + m * p + p)%nat with (s + S m * p)%nat by lia.
    by rewrite IH by lia.
Qed.

Lemma run_scan_fuel d p s fuel :
  (127 ≤ fuel)%nat → run_scan fuel d p s s = run_scan 127 d p s s.
Proof.
  induction 1 as [|fuel Hfuel IH]; [done|].
  rewrite <- IH. replace s with (s + 0 * p)%nat at 2 4 by lia.
  apply run_scan_fuel_S. lia.
Qed.

Lemma literal_scan_fuel_S d p s fuel m :
  (127 ≤ m + fuel)%nat →
  literal_scan (S fuel) d p s (s + m * p) = literal_scan fuel d p s (s + m * p).
Proof.
  revert m. induction fuel as [|fuel IH]; intros m Hm.
  - rewrite literal_scan_S. cbn [literal_scan].
    assert (127 * p ≤ m * p)%nat by (apply Nat.mul_le_mono_r; lia).
    rewrite (bool_decide_eq_false_2 (s + m * p - s < _)%nat) by lia.
    by rewrite andb_false_r.
  - rewrite (literal_scan_S (S fuel)), (literal_scan_S fuel d p s (s + m * p)).
    replace (s + m * p + p)%nat with (s + S m * p)%nat by lia.
    by rewrite IH by lia.
Qed.

Lemma literal_scan_fuel d p s fuel :
  (127 ≤ fuel)%nat →
  literal_scan fuel d p s (s + p) = literal_scan 127 d p s (s + p).
Proof.
  induction 1 as [|fuel Hfuel IH]; [done|].
  rewrite <- IH. replace (s + p)%nat with (s + 1 * p)%nat by lia.
  apply literal_scan_fuel_S. lia.
Qed.

Lemma is_bytes_app (a b : bytes) : is_bytes (a ++ b) ↔ is_bytes a ∧ is_bytes b.
Proof. apply Forall_app. Qed.

Lemma is_bytes_mul (px : bytes) (n : nat) :
  (1 ≤ n)%nat → is_bytes (bytes_mul px n) → is_bytes px.
Proof.
  intros Hn. destruct n as [|n]; [lia|].
  unfold bytes_mul. simpl. rewrite is_bytes_app. tauto.
Qed.

(** Every value the encoder appends to its [bytearray] is a byte, so no
    [append] or [extend] raises. *)
Lemma stream_is_bytes p segs :
  Forall (seg_shape p) segs → Forall seg_count_ok segs →
  is_bytes (pixels segs) → is_bytes (stream segs).
Proof.
  induction 1 as [|seg segs Hshape _ IH]; intros Hcount Hpx; [done|].
  apply Forall_cons in Hcount as [Hseg Hcount].
  rewrite pixels_cons, is_bytes_app in Hpx. destruct Hpx as [Hpx1 Hpx2].
  rewrite stream_cons, is_bytes_app. split; [|by apply IH].
  destruct seg as [c pl|c px]; simpl in *.
  - constructor; [lia|done].
  - destruct (repeat_tag c) as [Htag _]; [lia|].
    constructor; [lia|]. apply (is_bytes_mul px c); [lia|done].
Qed.

Lemma rle_encode_is_bytes d p :
  (1 ≤ p)%nat → (length d `mod` p = 0)%nat → is_bytes d →
  ∃ encoded, rle_encode d p = Return encoded ∧ is_bytes encoded.
Proof.
  intros Hp Hmod Hd.
  destruct (rle_encode_segments d p Hp Hmod) as (segs & -> & Hshape & Hcount & Hpx).
  exists (stream segs). split; [done|].
  apply (stream_is_bytes p); [done..|by rewrite Hpx].
Qed.

(** The segments read back are not vacuous: a tag [0x81] is a repeat of
    count 1, which the bounds reject. *)
Example segments_of_repeat_1 :
  segments_of [0x81; 5] 1 = [Repeat 1 [5]]
  ∧ ¬ Forall seg_count_ok (segments_of [0x81; 5] 1).
Proof.
  split; [reflexivity|].
  change (segments_of [0x81; 5] 1) with [Repeat 1 [5]].
  intros Hall. apply Forall_cons in Hall as [Hrep _]. simpl in Hrep. lia.
Qed.

(** The encoder on a buffer traced by hand: a run of three, a literal of
    three that stops before the run of four, that run, and a last
    literal; and the division by a zero pixel size. *)
Example rle_encode_sample :
  rle_encode [1; 1; 1; 2; 3; 3; 4; 4; 4; 4; 5] 1
  = Return [0x83; 1; 3; 2; 3; 3; 0x84; 4; 1; 5].
Proof. reflexivity. Qed.

Example rle_encode_zero_pixel_size : rle_encode [1; 2; 3] 0 = Raise ZeroDivisionError.
Proof. reflexivity. Qed.

(** * The raster header *)

Lemma le_bytes_length n v : length (le_bytes n v) = n.
Proof. revert v. induction n as [|n IH]; intros v; simpl; [done|]. by rewrite IH. Qed.

Lemma le_value_le_bytes n v :
  0 ≤ v < 256 ^ Z.of_nat n → le_value (le_bytes n v) = v.
Proof.
  revert v. induction n as [|n IH]; intros v Hv.
  - simpl in *. lia.
  - cbn [le_bytes le_value].
    rewrite Nat2Z.inj_succ, Z.pow_succ_r in Hv by lia.
    rewrite IH.
    + pose proof (Z.div_mod v 256). lia.
    + split; [apply Z.div_pos; lia|apply Z.div_lt_upper_bound; lia].
Qed.

Lemma unpack_pack n v :
  0 ≤ v < 256 ^ Z.of_nat n →
  pack_uint n v = Return (le_bytes n v)
  ∧ unpack_uint n (le_bytes n v) = Return v.
Proof.
  intros Hv. unfold pack_uint, unpack_uint.
  rewrite bool_decide_eq_true_2 by done.
  rewrite bool_decide_eq_true_2 by apply le_bytes_length.
  by rewrite le_value_le_bytes.
Qed.

Lemma le_bytes_is_bytes n v : is_bytes (le_bytes n v).
Proof.
  revert v. induction n as [|n IH]; intros v; simpl; constructor; [|apply IH].
  apply Z.mod_pos_bound. lia.
Qed.

Section header.
Variable md : cm_metadata.
Hypothesis Hsize : 0 ≤ size md < 2 ^ 32.
Hypothesis Hwidth : 0 ≤ width md < 2 ^ 16.
Hypothesis Hheight : 0 ≤ height md < 2 ^ 16.
Hypothesis Hcolors : 0 ≤ colors md < 2 ^ 16.
Hypothesis Hbpp : 0 ≤ bpp md < 2 ^ 8.
Hypothesis Hoffset : 0 ≤ data_offset md < 2 ^ 32.
Hypothesis Hlength : 0 ≤ data_length md < 2 ^ 32.

Lemma write_cm_metadata_header file :
  write_cm_metadata file md = Return (file ++ cm_header md).
Proof.
  unfold write_cm_metadata.
  destruct (unpack_pack 4 (size md)) as [-> _]; [done|].
  destruct (unpack_pack 2 (width md)) as [-> _]; [done|].
  destruct (unpack_pack 2 (height md)) as [-> _]; [done|].
  destruct (unpack_pack 2 (colors md)) as [-> _]; [done|].
  destruct (unpack_pack 4 (data_offset md)) as [-> _]; [done|].
  destruct (unpack_pack 4 (data_length md)) as [-> _]; [done|].
  cbn [bind]. unfold item_assign.
  rewrite (bool_decide_eq_true_2 (0 ≤ bpp md < 256)) by lia.
  rewrite (bool_decide_eq_true_2 (0 ≤ Z.b2z (is_compressed md) < 256))
    by (destruct (is_compressed md); simpl; lia).
  reflexivity.
Qed.

Lemma read_cm_metadata_header rest :
  size md = Z.of_nat (length (cm_header md ++ rest)) →
  read_cm_metadata (cm_header md ++ rest) = Return (Some (info_of md)).
Proof.
  intros Hfile. unfold read_cm_metadata.
  set (content := cm_header md ++ rest) in *.
  set (header := take 0x20 content).
  replace (slice header 0 2) with cm_magic by reflexivity.
  rewrite bool_decide_eq_false_2 by (intros Hne; by apply Hne).
  replace (header !! 0x0E%nat) with (Some 1) by reflexivity.
  rewrite bool_decide_eq_false_2 by (intros Hne; by apply Hne).
  replace (slice header 2 6) with (le_bytes 4 (size md)) by reflexivity.
  replace (slice header 6 8) with (le_bytes 2 (width md)) by reflexivity.
  replace (slice header 8 10) with (le_bytes 2 (height md)) by reflexivity.
  replace (slice header 0x0A 0x0C) with (le_bytes 2 (colors md)) by reflexivity.
  replace (slice header 0x10 0x14) with (le_bytes 4 (data_offset md))
    by reflexivity.
  replace (slice header 0x14 0x18) with (le_bytes 4 (data_length md))
    by reflexivity.
  replace (header !! 0x0C%nat) with (Some (bpp md)) by reflexivity.
  replace (header !! 0x0D%nat) with (Some (Z.b2z (is_compressed md)))
    by reflexivity.
  destruct (unpack_pack 4 (size md)) as [_ ->]; [done|].
  destruct (unpack_pack 2 (width md)) as [_ ->]; [done|].
  destruct (unpack_pack 2 (height md)) as [_ ->]; [done|].
  destruct (unpack_pack 2 (colors md)) as [_ ->]; [done|].
  destruct (unpack_pack 4 (data_offset md)) as [_ ->]; [done|].
  destruct (unpack_pack 4 (data_length md)) as [_ ->]; [done|].
  cbn [bind].
  rewrite bool_decide_eq_false_2 by (intros Hne; by apply Hne).
  unfold info_of. do 3 f_equal. by destruct (is_compressed md).
Qed.
End header.

(** C10. For every metadata record whose width, height and colors fit in
    a u16, whose bpp fits in a u8 and whose data_offset, data_length and
    size fit in a u32, the 0x20-byte header written by
    [write_cm_metadata] passes the magic check (first two bytes 'CM') and
    the version check (byte 0x0E equals 1) of [read_cm_metadata], and,
    when the stored size equals the length of the file, parsing the file
    recovers the same width, height, colors, bpp, is_compressed flag,
    data_offset and data_length. *)
Theorem cm_metadata_round_trip (metadata : cm_metadata) (payload : bytes) :
  0 ≤ width metadata < 2 ^ 16 →
  0 ≤ height metadata < 2 ^ 16 →
  0 ≤ colors metadata < 2 ^ 16 →
  0 ≤ bpp metadata < 2 ^ 8 →
  0 ≤ data_offset metadata < 2 ^ 32 →
  0 ≤ data_length metadata < 2 ^ 32 →
  0 ≤ size metadata < 2 ^ 32 →
  ∃ header,
    write_cm_metadata [] metadata = Return header
    ∧ length header = 0x20%nat
    ∧ slice header 0 2 = cm_magic
    ∧ header !! 0x0E%nat = Some 1
    ∧ (size metadata = Z.of_nat (length (header ++ payload)) →
       read_cm_metadata (header ++ payload) = Return (Some (info_of metadata))).
Proof.
  intros Hwidth Hheight Hcolors Hbpp Hoffset Hlength Hsize.
  exists (cm_header metadata).
  split; [by rewrite write_cm_metadata_header|].
  split; [reflexivity|]. split; [reflexivity|]. split; [reflexivity|].
  by apply read_cm_metadata_header.
Qed.

Lemma cm_metadata_round_trip_witness :
  ∃ header,
    write_cm_metadata [] sample_metadata = Return header
    ∧ length header = 0x20%nat
    ∧ slice header 0 2 = cm_magic
    ∧ header !! 0x0E%nat = Some 1
    ∧ (size sample_metadata = Z.of_nat (length (header ++ [0x82; 1; 2; 3]))
       → read_cm_metadata (header ++ [0x82; 1; 2; 3])
         = Return (Some (info_of sample_metadata))).
Proof.
  apply (cm_metadata_round_trip sample_metadata [0x82; 1; 2; 3]);
    simpl; lia.
Defined.

(** * Archive index resolution *)

Lemma bind_Return {A B} (m : outcome A) (k : A → outcome B) (b : B) :
  bind m k = Return b → ∃ a, m = Return a ∧ k a = Return b.
Proof. destruct m as [a| |]; cbn [bind]; [eauto|done..]. Qed.

(** Splits a hypothesis [bind m k = Return b] into its two steps. *)
Tactic Notation "bind_inv" hyp(H) "as" ident(a) ident(Ha) :=
  apply bind_Return in H; destruct H as (a & Ha & H); cbn beta in H.

Section resolver_facts.
Variable detect : file → Z → outcome str.
Variable f : file.
Variable mask : bool.
Variable folders : option (list folder).
Variable count : Z.

(** What a completed iteration of the entry loop has done. *)
Lemma entries_loop_S_inv n i index_offset cur fo nf dir result :
  entries_loop detect f mask folders count (S n) i index_offset cur fo nf dir
    = Return (Some result) →
  ∃ cur' fo' nf' name offset size type,
    advance_folder (length (default [] folders)) folders count i cur fo nf
      = Return (cur', fo', nf')
    ∧ read_string f index_offset 0x10 = Return name
    ∧ name ≠ []
    ∧ read_uint32 f (index_offset + 0x10) = Return offset
    ∧ read_uint32 f (index_offset + 0x14) = Return size
    ∧ (if negb mask then detect f offset else Return mask_type) = Return type
    ∧ offset + size ≤ getsize f
    ∧ entries_loop detect f mask folders count n (i + 1) (index_offset + 0x18)
        cur' fo' nf'
        (dir ++ [{| entry_name := path_join cur' name; entry_offset := offset;
                     entry_size := size; entry_type := type |}])
      = Return (Some result).
Proof.
  intros H. cbn [entries_loop] in H.
  bind_inv H as st Hst. destruct st as [[cur' fo'] nf'].
  bind_inv H as name Hname.
  case_bool_decide as Hempty; [done|].
  bind_inv H as offset Hoffset. bind_inv H as size Hsize. bind_inv H as type Htype.
  unfold check_placement in H. cbn [entry_offset entry_size] in H.
  case_bool_decide as Hplace; [|done]. cbn [negb] in H.
  exists cur', fo', nf', name, offset, size, type.
  repeat split; try done.
  intros ->. by apply Hempty.
Qed.

(** The entries of a resolved index: the loop appends one entry per
    iteration, each inside the file and, under [mask], of the override
    type. *)
Lemma entries_loop_entries n : ∀ i index_offset cur fo nf dir result,
  entries_loop detect f mask folders count n i index_offset cur fo nf dir
    = Return (Some result) →
  ∃ es, result = dir ++ es
    ∧ length es = n
    ∧ Forall (λ e, entry_offset e + entry_size e ≤ getsize f
                   ∧ (mask = true → entry_type e = mask_type)) es.
Proof.
  induction n as [|n IH]; intros i index_offset cur fo nf dir result H.
  - cbn [entries_loop] in H. exists []. rewrite app_nil_r.
    split; [congruence|]. by split.
  - apply entries_loop_S_inv in H
      as (cur' & fo' & nf' & name & offset & size & type
          & _ & _ & _ & _ & _ & Htype & Hplace & H).
    apply IH in H as (es & -> & Hlen & Hes).
    eexists (_ :: es). split; [by rewrite <- (assoc (++))|].
    split; [simpl; lia|]. constructor; [|done]. split; [done|].
    intros Hmask. rewrite Hmask in Htype. cbn [negb] in Htype.
    cbn [entry_type]. congruence.
Qed.
End resolver_facts.

(** Under [mask], the loop never calls the detector. *)
Lemma entries_loop_mask_detect detect detect' f folders count n :
  ∀ i index_offset cur fo nf dir,
    entries_loop detect f true folders count n i index_offset cur fo nf dir
    = entries_loop detect' f true folders count n i index_offset cur fo nf dir.
Proof.
  induction n as [|n IH]; intros i index_offset cur fo nf dir; [done|].
  cbn [entries_loop].
  destruct (advance_folder _ _ _ _ _ _ _) as [[[cur' fo'] nf']| |]; [|done..].
  cbn [bind].
  destruct (read_string f index_offset 16) as [name| |]; [|done..].
  cbn [bind]. case_bool_decide; [done|].
  destruct (read_uint32 f (index_offset + 16)) as [offset| |]; [|done..].
  cbn [bind].
  destruct (read_uint32 f (index_offset + 20)) as [size| |]; [|done..].
  cbn [bind negb]. destruct (negb _); [done|]. apply IH.
Qed.

(** What a successful [try_open] has read and computed. *)
Lemma try_open_with_inv lower detect f arc :
  try_open_with lower detect f = Return (Some arc) →
  ∃ count dir_level dir_entries folders next_folder,
    read_uint32 f 4 = Return (getsize f)
    ∧ read_int32 f 8 = Return count
    ∧ 0 < count ≤ 0xfffff
    ∧ read_byte f 0x0d = Return dir_level
    ∧ read_uint16 f 0x0e = Return dir_entries
    ∧ count * 0x18 + dir_entries * 8 ≤ getsize f - 0x10
    ∧ (if bool_decide (dir_entries ≠ 0) && bool_decide (dir_level = 2) then
         fs ←! read_folders f (Z.to_nat dir_entries)
                 (0x10 + Z.to_nat count * 0x18) [];
         Return (Some fs)
       else Return None) = Return folders
    ∧ match folders with
      | None => Return count
      | Some fs => folder_index_at fs 0
      end = Return next_folder
    ∧ entries_loop detect f (is_mask_arc lower (file_path f)) folders count
        (Z.to_nat count) 0 0x10 [] 0 next_folder []
      = Return (Some (arc_entries arc)).
Proof.
  intros H. unfold try_open_with in H.
  bind_inv H as file_size Hfile_size. case_bool_decide as Hfs; [done|].
  bind_inv H as count Hcount. case_bool_decide as Hrange; [done|].
  bind_inv H as dir_level Hlevel. bind_inv H as dir_entries Hentries.
  case_bool_decide as Hindex; [done|].
  bind_inv H as folders Hfolders. bind_inv H as next_folder Hnext.
  bind_inv H as dir Hdir.
  destruct dir as [dir|]; [|done].
  cbn [fmap option_fmap option_map] in H. simplify_eq.
  exists count, dir_level, dir_entries, folders, next_folder.
  change (Z.of_nat 16) with 16 in Hindex.
  repeat split; try done; lia.
Qed.

(** A resolved index holds only entries that lie inside the file. *)
Lemma try_open_entries_placed lower detect f arc :
  try_open_with lower detect f = Return (Some arc) →
  Forall (λ e, entry_offset e + entry_size e ≤ getsize f) (arc_entries arc).
Proof.
  intros H. apply try_open_with_inv in H
    as (count & dir_level & dir_entries & folders & next_folder
        & _ & _ & _ & _ & _ & _ & _ & _ & H).
  apply entries_loop_entries in H as (es & -> & _ & Hes).
  simpl. eapply Forall_impl; [apply Hes|]. by intros e [? _].
Qed.

(** C7. For every archive whose file basename is "mask.arc" up to case
    (the lower-cased basename is "mask.arc", for the case mapping
    [lower] of the interpreter, whatever it is), every entry of a
    resolved index has the fixed override type, and the signature-based
    detection is not consulted: resolution gives the same result
    whatever the detector would answer, or fail to answer, on the bytes
    at the entries' offsets. *)
Theorem mask_arc_override (lower : str → str) (f : file) :
  is_mask_arc lower (file_path f) = true →
  (∀ arc, try_open lower f = Return (Some arc) →
     Forall (λ e, entry_type e = mask_type) (arc_entries arc))
  ∧ (∀ detect, try_open_with lower detect f = try_open lower f).
Proof.
  intros Hmask. split.
  - intros arc H. unfold try_open in H. apply try_open_with_inv in H
      as (count & dir_level & dir_entries & folders & next_folder
          & _ & _ & _ & _ & _ & _ & _ & _ & H).
    apply entries_loop_entries in H as (es & -> & _ & Hes).
    simpl. eapply Forall_impl; [apply Hes|].
    intros e [_ Htype]. by apply Htype.
  - intros detect. unfold try_open, try_open_with. rewrite Hmask.
    repeat (match goal with
            | |- bind ?m _ = bind ?m _ =>
                destruct m; cbn [bind]; [|done..]
            | |- (if ?b then _ else _) = (if ?b then _ else _) =>
                destruct b; [done|]
            end).
    by rewrite (entries_loop_mask_detect detect detect_file_type).
Qed.

(** The archive "game/Mask.ARC", whose five entries begin with the
    signatures of ".cm", ".am", ".bmp", ".msk" and with other bytes, is
    resolved, and all five entries carry the override type. *)
Lemma mask_arc_override_witness :
  is_mask_arc lower_fragment (file_path two_folder_mask_archive) = true
  ∧ try_open lower_fragment two_folder_mask_archive
    = Return (Some {| arc_file := str_of "game/Mask.ARC";
                      arc_entries := mask_archive_entries |})
  ∧ Forall (λ e, entry_type e = mask_type) mask_archive_entries
  ∧ (∀ detect, try_open_with lower_fragment detect two_folder_mask_archive
               = Return (Some {| arc_file := str_of "game/Mask.ARC";
                                 arc_entries := mask_archive_entries |})).
Proof.
  destruct (mask_arc_override lower_fragment two_folder_mask_archive eq_refl)
    as [Htypes Hdetect].
  split; [reflexivity|]. split; [reflexivity|]. split.
  - apply (Htypes {| arc_file := str_of "game/Mask.ARC";
                     arc_entries := mask_archive_entries |}). reflexivity.
  - intros detect. rewrite Hdetect. reflexivity.
Defined.

(** C5 fails on the code. The one entry of [misplaced_archive] declares
    the range [0x28, 0x29) in a file of 0x28 bytes; [try_open] reads the
    signature at the entry's offset before it checks the placement, finds
    no four bytes there, and raises [struct.error] where the invalid
    result [None] was to be returned. *)
Theorem misplaced_entry_raises (lower : str → str) :
  is_mask_arc lower (file_path misplaced_archive) = false →
  getsize misplaced_archive = 0x28
  ∧ read_uint32 misplaced_archive (0x10 + 0x10) = Return 0x28
  ∧ read_uint32 misplaced_archive (0x10 + 0x14) = Return 1
  ∧ try_open lower misplaced_archive = Raise StructError.
Proof.
  intros Hmask. repeat split; try reflexivity.
  unfold try_open, try_open_with. rewrite Hmask. reflexivity.
Qed.

Lemma misplaced_entry_raises_witness :
  is_mask_arc lower_fragment (file_path misplaced_archive) = false
  ∧ getsize misplaced_archive = 0x28
  ∧ read_uint32 misplaced_archive (0x10 + 0x10) = Return 0x28
  ∧ read_uint32 misplaced_archive (0x10 + 0x14) = Return 1
  ∧ try_open lower_fragment misplaced_archive = Raise StructError.
Proof.
  split; [reflexivity|]. apply (misplaced_entry_raises lower_fragment).
  reflexivity.
Defined.

(** The same bytes under the name "mask.arc", where no signature is
    read, are rejected as the claim says. *)
Example misplaced_entry_mask_rejected :
  try_open lower_fragment {| file_path := str_of "mask.arc";
              file_content := file_content misplaced_archive |} = Return None.
Proof. reflexivity. Qed.

Lemma path_join_relative (folder name : str) :
  folder ≠ [] → last folder ≠ Some slash → head name ≠ Some slash →
  name ≠ [] → path_join folder name = folder ++ [slash] ++ name.
Proof.
  intros Hfolder Hlast Hhead Hname. unfold path_join.
  destruct name as [|c name]; [done|].
  rewrite bool_decide_eq_false_2 by (intros ->; by apply Hhead).
  rewrite bool_decide_eq_false_2 by (intros [?|?]; done).
  done.
Qed.

Lemma path_join_rooted (folder name : str) :
  head name = Some slash → path_join folder name = name.
Proof.
  intros Hhead. destruct name as [|c name]; [done|].
  simpl in Hhead. simplify_eq. unfold path_join.
  by rewrite bool_decide_eq_true_2.
Qed.

(** One completed iteration of the entry loop over the table
    [AA @ 0; BB @ 3]: the folder cursor is evaluated. *)
Ltac entry_step H name Hname Hne :=
  let cur := fresh "cur" in
  let fo := fresh "fo" in
  let nf := fresh "nf" in
  let Hadv := fresh "Hadv" in
  apply entries_loop_S_inv in H
    as (cur & fo & nf & name & ? & ? & ? & Hadv & Hname & Hne & _ & _ & _ & _ & H);
  vm_compute in Hadv; injection Hadv as <- <- <-.

(** C6, as amended. For an archive whose directory table is
    [{name: "AA", start: 0}, {name: "BB", start: 3}] with directory level
    2 and 5 flat entries, resolution gives flat entries 0, 1 and 2 the
    folder "AA" and flat entries 3 and 4 the folder "BB": each entry's
    name is [os.path.join] of that folder and the entry's raw name, which
    is the folder, a slash and the raw name when the raw name does not
    begin with a slash, and the raw name alone, without the folder, when
    it does. *)
Theorem two_folder_resolution (lower : str → str) (f : file) (arc : archive) :
  read_int32 f 8 = Return 5 →
  read_byte f 0x0d = Return 2 →
  read_uint16 f 0x0e = Return 2 →
  read_folders f 2 (0x10 + 5 * 0x18) []
    = Return [{| folder_name := str_of "AA"; folder_index := 0 |};
              {| folder_name := str_of "BB"; folder_index := 3 |}] →
  try_open lower f = Return (Some arc) →
  ∃ raw0 raw1 raw2 raw3 raw4,
    read_string f (0x10 + 0 * 0x18) 0x10 = Return raw0
    ∧ read_string f (0x10 + 1 * 0x18) 0x10 = Return raw1
    ∧ read_string f (0x10 + 2 * 0x18) 0x10 = Return raw2
    ∧ read_string f (0x10 + 3 * 0x18) 0x10 = Return raw3
    ∧ read_string f (0x10 + 4 * 0x18) 0x10 = Return raw4
    ∧ Forall2 (λ e '(folder, raw),
         entry_name e = path_join folder raw
         ∧ (head raw ≠ Some slash →
            entry_name e = folder ++ [slash] ++ raw)
         ∧ (head raw = Some slash → entry_name e = raw))
        (arc_entries arc)
        [(str_of "AA", raw0); (str_of "AA", raw1); (str_of "AA", raw2);
         (str_of "BB", raw3); (str_of "BB", raw4)].
Proof.
  intros Hcount Hlevel Hentries Hfolders H. unfold try_open in H.
  apply try_open_with_inv in H
    as (count & dir_level & dir_entries & folders & next_folder
        & _ & Hcount' & _ & Hlevel' & Hentries' & _ & Hfs & Hnext & H).
  rewrite Hcount in Hcount'. rewrite Hlevel in Hlevel'.
  rewrite Hentries in Hentries'. simplify_eq.
  change (Z.to_nat 2) with 2%nat in Hfs.
  change (16 + Z.to_nat 5 * 24)%nat with (0x10 + 5 * 0x18)%nat in Hfs.
  rewrite Hfolders in Hfs. vm_compute in Hfs. simplify_eq.
  vm_compute in Hnext. simplify_eq.
  change (Z.to_nat 5) with 5%nat in H.
  entry_step H raw0 Hraw0 Hne0. entry_step H raw1 Hraw1 Hne1.
  entry_step H raw2 Hraw2 Hne2. entry_step H raw3 Hraw3 Hne3.
  entry_step H raw4 Hraw4 Hne4.
  cbn [entries_loop app] in H. simplify_eq. rewrite <- H.
  exists raw0, raw1, raw2, raw3, raw4.
  repeat (split; [done|]).
  repeat (constructor;
          [split; [done|split;
             [intros ?; by apply path_join_relative
             |intros ?; by apply path_join_rooted]]|]).
  constructor.
Qed.

Lemma two_folder_resolution_witness :
  ∃ arc raw0 raw1 raw2 raw3 raw4,
    try_open lower_fragment two_folder_archive = Return (Some arc)
    ∧ read_string two_folder_archive (0x10 + 0 * 0x18) 0x10 = Return raw0
    ∧ read_string two_folder_archive (0x10 + 1 * 0x18) 0x10 = Return raw1
    ∧ read_string two_folder_archive (0x10 + 2 * 0x18) 0x10 = Return raw2
    ∧ read_string two_folder_archive (0x10 + 3 * 0x18) 0x10 = Return raw3
    ∧ read_string two_folder_archive (0x10 + 4 * 0x18) 0x10 = Return raw4
    ∧ Forall2 (λ e '(folder, raw),
         entry_name e = path_join folder raw
         ∧ (head raw ≠ Some slash →
            entry_name e = folder ++ [slash] ++ raw)
         ∧ (head raw = Some slash → entry_name e = raw))
        (arc_entries arc)
        [(str_of "AA", raw0); (str_of "AA", raw1); (str_of "AA", raw2);
         (str_of "BB", raw3); (str_of "BB", raw4)].
Proof.
  eexists.
  destruct (two_folder_resolution lower_fragment two_folder_archive _
    eq_refl eq_refl eq_refl eq_refl eq_refl)
    as (raw0 & raw1 & raw2 & raw3 & raw4 & H).
  exists raw0, raw1, raw2, raw3, raw4. split; [reflexivity|exact H].
Defined.

(** C6, as stated, fails: in [rooted_names_archive], which has the
    directory table [AA @ 0; BB @ 3], directory level 2 and 5 flat
    entries, the records 0 and 3 are named "/a" and "/etc/d";
    [os.path.join] drops the folder in front of such a name, and the two
    entries are resolved to "/a" and "/etc/d", under neither "AA" nor
    "BB". *)
Lemma rooted_names_lose_folder :
  read_int32 rooted_names_archive 8 = Return 5
  ∧ read_byte rooted_names_archive 0x0d = Return 2
  ∧ read_uint16 rooted_names_archive 0x0e = Return 2
  ∧ read_folders rooted_names_archive 2 (0x10 + 5 * 0x18) []
    = Return [{| folder_name := str_of "AA"; folder_index := 0 |};
              {| folder_name := str_of "BB"; folder_index := 3 |}]
  ∧ (∀ lower,
       (λ arc, entry_name <$> arc_entries arc)
         <$$> try_open lower rooted_names_archive
       = Return (Some [str_of "/a"; str_of "AA/b"; str_of "AA/c";
                       str_of "/etc/d"; str_of "BB/e"]))
  ∧ (∀ lower, ¬ two_folder_prefixes lower).
Proof.
  assert (∀ lower,
            (λ arc, entry_name <$> arc_entries arc)
              <$$> try_open lower rooted_names_archive
            = Return (Some [str_of "/a"; str_of "AA/b"; str_of "AA/c";
                            str_of "/etc/d"; str_of "BB/e"])) as Hnames.
  { intros lower. unfold try_open, try_open_with.
    destruct (is_mask_arc lower (file_path rooted_names_archive));
      reflexivity. }
  repeat (split; [reflexivity|]). split; [exact Hnames|].
  intros lower Hprefixes. specialize (Hnames lower).
  destruct (try_open lower rooted_names_archive) as [[arc|]| |] eqn:Hopen;
    try discriminate.
  specialize (Hprefixes rooted_names_archive arc
                eq_refl eq_refl eq_refl eq_refl Hopen).
  injection Hnames as Hnames.
  destruct (arc_entries arc) as [|e0 es]; [discriminate|].
  injection Hnames as Hname0 _.
  apply Forall2_cons_1 in Hprefixes as [[k Hk] _].
  rewrite Hname0 in Hk. discriminate.
Qed.

(** A name with KELVIN SIGN in place of the letter K is "mask.arc" as
    well, once lower-cased. *)
Example kelvin_sign_mask_arc :
  is_mask_arc lower_fragment
    (str_of "game/" ++ [77; 65; 83; 0x212A; 46; 65; 82; 67]) = true.
Proof. reflexivity. Qed.

(** * Build, then resolve *)

Lemma read_at_app f pre x post :
  file_content f = pre ++ x ++ post →
  read_at f (length pre) (length x) = x.
Proof.
  intros Hf. unfold read_at, slice. rewrite Hf, drop_app_length.
  replace (length pre + length x - length pre)%nat with (length x) by lia.
  apply take_app_length.
Qed.

Lemma read_uint32_app f pre v post :
  file_content f = pre ++ le_bytes 4 v ++ post → 0 ≤ v < 2 ^ 32 →
  read_uint32 f (length pre) = Return v.
Proof.
  intros Hf Hv. unfold read_uint32.
  rewrite <- (le_bytes_length 4 v) at 2.
  rewrite (read_at_app f pre _ post Hf).
  by destruct (unpack_pack 4 v) as [_ ->].
Qed.

Lemma rstrip_nul_zeros k : rstrip_nul (replicate k 0) = [].
Proof. induction k as [|k IH]; [done|]. simpl. by rewrite IH. Qed.

Lemma rstrip_nul_padded name k :
  Forall (λ c, 1 ≤ c < 128) name → rstrip_nul (name ++ replicate k 0) = name.
Proof.
  induction 1 as [|c name Hc _ IH]; [apply rstrip_nul_zeros|].
  simpl. rewrite IH. destruct name; [|done].
  rewrite bool_decide_eq_false_2 by lia. done.
Qed.

Lemma ljust16_length name : (length name ≤ 16)%nat → length (ljust16 name) = 16%nat.
Proof. intros Hlen. unfold ljust16. rewrite length_app, length_replicate. lia. Qed.

Lemma read_string_padded f pre name post :
  name_ok name →
  file_content f = pre ++ ljust16 name ++ post →
  read_string f (length pre) 0x10 = Return name.
Proof.
  intros [Hlen Hascii] Hf. unfold read_string.
  rewrite <- (ljust16_length name) at 1 by lia.
  rewrite (read_at_app f pre _ post Hf). unfold decode_ascii.
  rewrite bool_decide_eq_true_2.
  - cbn [bind]. unfold ljust16. by rewrite rstrip_nul_padded.
  - unfold ljust16. apply Forall_app. split.
    + eapply Forall_impl; [done|]. simpl. lia.
    + apply Forall_replicate. lia.
Qed.

Lemma path_join_empty name : name ≠ [] → path_join [] name = name.
Proof.
  intros Hname. unfold path_join. destruct name as [|c name]; [done|].
  case_bool_decide; [done|].
  rewrite bool_decide_eq_true_2 by by left. done.
Qed.

Lemma detect_file_type_returns f offset :
  0 ≤ offset → offset + 4 ≤ getsize f →
  ∃ type, detect_file_type f offset = Return type.
Proof.
  intros Hoffset Hroom. unfold detect_file_type, read_uint32, unpack_uint.
  rewrite bool_decide_eq_true_2.
  - cbn [bind]. repeat case_bool_decide; eauto.
  - unfold getsize in Hroom. unfold read_at. rewrite slice_length; lia.
Qed.

Lemma index_bytes_cons name data offset placed :
  index_bytes ((name, data, offset) :: placed)
  = record_bytes name (Z.of_nat offset) (Z.of_nat (length data))
    ++ index_bytes placed.
Proof. done. Qed.

Section packer_facts.
Variable cp932 : Z → option bytes.
Hypothesis cp932_ascii : ∀ c, 0 ≤ c < 128 → cp932 c = Some [c].

Lemma encode_cp932_ascii s :
  Forall (λ c, 0 ≤ c < 128) s → encode_cp932 cp932 s = Return s.
Proof.
  induction 1 as [|c s Hc _ IH]; [done|].
  cbn [encode_cp932]. by rewrite cp932_ascii, IH.
Qed.

(** A name of at most 16 ASCII characters is written as exactly 16
    bytes, padded with zeros. *)
Lemma name_field_ok name :
  name_ok name → name_field cp932 name = Return (ljust16 name).
Proof.
  intros [Hlen Hascii]. unfold name_field. apply encode_cp932_ascii.
  unfold ljust16. apply Forall_app. split.
  - eapply Forall_impl; [done|]. simpl. lia.
  - apply Forall_replicate. lia.
Qed.

(** A longer ASCII name is written in full: the field is not cut to 16
    bytes. *)
Lemma name_field_long name :
  Forall (λ c, 0 ≤ c < 128) name → (16 ≤ length name)%nat →
  name_field cp932 name = Return name.
Proof.
  intros Hascii Hlen. unfold name_field, ljust16.
  replace (16 - length name)%nat with 0%nat by lia.
  rewrite app_nil_r. by apply encode_cp932_ascii.
Qed.

Lemma write_index_ok placed :
  Forall (λ '(name, data, offset),
            name_ok name ∧ Z.of_nat offset < 2 ^ 32
            ∧ Z.of_nat (length data) < 2 ^ 32) placed →
  write_index cp932 placed = Return (index_bytes placed).
Proof.
  induction 1 as [|[[name data] offset] placed (Hname & Hoff & Hsize) _ IH];
    [done|].
  cbn [write_index]. rewrite name_field_ok by done.
  destruct (unpack_pack 4 (Z.of_nat offset)) as [-> _]; [lia|].
  destruct (unpack_pack 4 (Z.of_nat (length data))) as [-> _]; [lia|].
  rewrite IH. cbn [bind]. rewrite index_bytes_cons. unfold record_bytes.
  by rewrite <- !(assoc (++)).
Qed.
End packer_facts.

Lemma index_bytes_length placed :
  Forall (λ '(name, _, _), name_ok name) placed →
  length (index_bytes placed) = (length placed * 0x18)%nat.
Proof.
  induction 1 as [|[[name data] offset] placed [Hlen _] _ IH]; [done|].
  rewrite index_bytes_cons, length_app, IH. unfold record_bytes.
  rewrite !length_app, ljust16_length, !le_bytes_length by lia.
  simpl. lia.
Qed.

(** The entry loop over an index region written by [write_index], in an
    archive without directory table. *)
Lemma entries_loop_packed detect f mask count placed :
  ∀ pre post i dir,
    file_content f = pre ++ index_bytes placed ++ post →
    Forall (λ '(name, data, offset),
              name_ok name
              ∧ Z.of_nat offset < 2 ^ 32
              ∧ Z.of_nat (length data) < 2 ^ 32
              ∧ Z.of_nat offset + Z.of_nat (length data) ≤ getsize f
              ∧ (mask = true ∨ ∃ t, detect f (Z.of_nat offset) = Return t))
           placed →
    i + Z.of_nat (length placed) = count →
    ∃ es,
      entries_loop detect f mask None count (length placed) i (length pre)
        [] 0 count dir = Return (Some (dir ++ es))
      ∧ Forall2 (λ e '(name, data, offset),
                   entry_name e = name
                   ∧ entry_offset e = Z.of_nat offset
                   ∧ entry_size e = Z.of_nat (length data)) es placed.
Proof.
  induction placed as [|[[name data] offset] placed IH];
    intros pre post i dir Hf Hok Hcount.
  { exists []. rewrite app_nil_r. by split. }
  apply Forall_cons in Hok
    as [(Hname & Hoff & Hsize & Hplace & Htype) Hok].
  rewrite index_bytes_cons in Hf. unfold record_bytes in Hf.
  rewrite <- !(assoc (++)) in Hf.
  cbn [entries_loop length default advance_folder].
  rewrite (bool_decide_eq_false_2 (count ≤ i)) by (simpl in Hcount; lia).
  cbn [bind].
  rewrite (read_string_padded f pre name _ Hname Hf). cbn [bind].
  rewrite bool_decide_eq_false_2 by (destruct Hname; lia).
  assert (length (pre ++ ljust16 name) = (length pre + 0x10)%nat) as Hlen16.
  { rewrite length_app, ljust16_length; [done|]. destruct Hname; lia. }
  rewrite <- Hlen16.
  rewrite (read_uint32_app f (pre ++ ljust16 name) (Z.of_nat offset)
             (le_bytes 4 (Z.of_nat (length data)) ++ index_bytes placed ++ post))
    by (rewrite <- ?(assoc (++)); done || lia).
  cbn [bind].
  assert (length ((pre ++ ljust16 name) ++ le_bytes 4 (Z.of_nat offset))
          = (length pre + 0x14)%nat) as Hlen20.
  { rewrite length_app, Hlen16, le_bytes_length. lia. }
  rewrite <- Hlen20.
  rewrite (read_uint32_app f _ (Z.of_nat (length data))
             (index_bytes placed ++ post))
    by (rewrite <- ?(assoc (++)); done || lia).
  cbn [bind].
  assert (∃ t, (if negb mask then detect f (Z.of_nat offset)
                else Return mask_type) = Return t) as [t ->].
  { destruct Htype as [->|[t Ht]]; [by eexists|].
    destruct mask; cbn [negb]; eauto. }
  cbn [bind]. unfold check_placement. cbn [entry_offset entry_size].
  rewrite bool_decide_eq_true_2 by done. cbn [negb].
  destruct (IH (pre ++ ljust16 name ++ le_bytes 4 (Z.of_nat offset)
                  ++ le_bytes 4 (Z.of_nat (length data))) post (i + 1)
              (dir ++ [{| entry_name := path_join [] name;
                          entry_offset := Z.of_nat offset;
                          entry_size := Z.of_nat (length data);
                          entry_type := t |}]))
    as (es & Hloop & Hes).
  { by rewrite <- !(assoc (++)). }
  { done. }
  { simpl in Hcount. lia. }
  rewrite !length_app, ljust16_length, !le_bytes_length in Hloop
    by (destruct Hname; lia).
  replace (length pre + (16 + (4 + 4)))%nat with (length pre + 24)%nat
    in Hloop by lia.
  eexists (_ :: es). split.
  - rewrite <- (assoc (++)) in Hloop. exact Hloop.
  - constructor; [|done]. cbn [entry_name entry_offset entry_size].
    split; [|done]. apply path_join_empty. destruct Hname as [? _].
    intros ->. simpl in *. lia.
Qed.

Lemma slice_app_middle (pre x post : bytes) :
  slice (pre ++ x ++ post) (length pre) (length pre + length x) = x.
Proof.
  unfold slice. rewrite drop_app_length.
  replace (length pre + length x - length pre)%nat with (length x) by lia.
  apply take_app_length.
Qed.

Lemma mjoin_cons {A} (x : list A) (l : list (list A)) :
  mjoin (x :: l) = x ++ mjoin l.
Proof. done. Qed.

Lemma last_size_cons item listing :
  listing ≠ [] → last_size (item :: listing) = last_size listing.
Proof. intros Hne. unfold last_size. by destruct listing. Qed.

Lemma last_size_le listing :
  (last_size listing ≤ length (mjoin (snd <$> listing)))%nat.
Proof.
  induction listing as [|item listing IH]; [done|].
  rewrite fmap_cons, mjoin_cons, length_app.
  destruct listing as [|item' listing]; [unfold last_size; simpl; lia|].
  rewrite last_size_cons by done. lia.
Qed.

(** The entries with their offsets are the entries, in order, and the
    final offset is the first one plus the payloads. *)
Lemma assign_offsets_shape entries :
  ∀ base placed total,
    assign_offsets entries base = (placed, total) →
    fst <$> placed = entries
    ∧ total = (base + length (mjoin (snd <$> entries)))%nat.
Proof.
  induction entries as [|[name data] entries IH]; intros base placed total H.
  - simpl in H. simplify_eq. split; [done|simpl; lia].
  - cbn [assign_offsets] in H.
    destruct (assign_offsets entries (base + length data))
      as [placed' total'] eqn:Hrest.
    simplify_eq. apply IH in Hrest as [Hfst ->].
    rewrite !fmap_cons, mjoin_cons. cbn [fst snd].
    rewrite Hfst, length_app. split; [done|lia].
Qed.

(** Each assigned offset points at the entry's payload among the
    concatenated payloads that follow [pre]. *)
Lemma assign_offsets_slices entries :
  ∀ base placed total pre post,
    assign_offsets entries base = (placed, total) →
    length pre = base →
    Forall (λ '(name, data, offset),
              (offset + length data ≤ total)%nat
              ∧ (offset + last_size entries ≤ total)%nat
              ∧ slice (pre ++ mjoin (snd <$> entries) ++ post)
                  offset (offset + length data) = data) placed.
Proof.
  induction entries as [|[name data] entries IH];
    intros base placed total pre post H Hpre.
  - simpl in H. by simplify_eq.
  - pose proof (assign_offsets_shape _ _ _ _ H) as [_ Htotal].
    pose proof (last_size_le ((name, data) :: entries)) as Hlast.
    cbn [assign_offsets] in H.
    destruct (assign_offsets entries (base + length data))
      as [placed' total'] eqn:Hrest.
    simplify_eq. rewrite fmap_cons, mjoin_cons in *. cbn [snd] in *.
    rewrite length_app in *.
    constructor.
    + split; [lia|]. split; [lia|].
      rewrite <- (assoc (++)). apply slice_app_middle.
    + destruct (decide (entries = [])) as [->|Hne];
        [simpl in Hrest; simplify_eq; constructor|].
      specialize (IH _ _ _ (pre ++ data) post Hrest).
      rewrite length_app in IH. specialize (IH eq_refl).
      eapply Forall_impl; [apply IH|].
      intros [[name' data'] offset'] (Hin & Hroom & Hslice).
      rewrite <- !(assoc (++)) in Hslice. rewrite <- !(assoc (++)).
      split; [done|]. split; [|done]. by rewrite last_size_cons.
Qed.

(** The header fields that [try_open] reads in an archive laid out by
    [pack_files]. *)
Lemma packed_header_reads f total count rest :
  file_content f
  = le_bytes 4 signature ++ le_bytes 4 total ++ le_bytes 4 count
    ++ [0; 1; 0; 0] ++ rest →
  0 ≤ total < 2 ^ 32 → 0 ≤ count < 2 ^ 31 →
  read_uint32 f 4 = Return total
  ∧ read_int32 f 8 = Return count
  ∧ read_byte f 0x0d = Return 1
  ∧ read_uint16 f 0x0e = Return 0.
Proof.
  intros Hf Htotal Hcount.
  split; [|split; [|split]].
  - apply (read_uint32_app f (le_bytes 4 signature) total
             (le_bytes 4 count ++ [0; 1; 0; 0] ++ rest)); [done|lia].
  - unfold read_int32, unpack_int32.
    pose proof (read_uint32_app f (le_bytes 4 signature ++ le_bytes 4 total)
                  count ([0; 1; 0; 0] ++ rest)) as Hread.
    unfold read_uint32 in Hread. rewrite <- !(assoc (++)) in Hread.
    change (length (le_bytes 4 signature ++ le_bytes 4 total)) with 8%nat
      in Hread.
    rewrite Hread by (done || lia). cbn [bind].
    by rewrite bool_decide_eq_true_2 by lia.
  - unfold read_byte, read_at. rewrite Hf. reflexivity.
  - unfold read_uint16, read_at. rewrite Hf. reflexivity.
Qed.

Lemma Forall2_and_r {A B} (R : A → B → Prop) (P : B → Prop) l k :
  Forall2 R l k → Forall P k → Forall2 (λ x y, R x y ∧ P y) l k.
Proof.
  induction 1 as [|x y l k HR _ IH]; intros HP; [constructor|].
  apply Forall_cons in HP as [HPy HP]. constructor; auto.
Qed.

(** C3, as amended. Packing a directory of N files and resolving the
    archive again succeeds and yields N entries with the recorded names
    (the relative paths without their extension) and, in their byte
    ranges, the files' payloads, provided that 1 <= N <= 0xFFFFF, every
    recorded name is 1 to 16 ASCII characters without NUL, the archive
    is smaller than 2^32 bytes, and the last file has at least 4 bytes
    or the archive is named "mask.arc". *)
Theorem pack_then_open (lower : str → str) (cp932 : Z → option bytes)
    (listing : list (str * bytes)) (archive_path : str) :
  (∀ c, 0 ≤ c < 128 → cp932 c = Some [c]) →
  1 ≤ Z.of_nat (length listing) ≤ 0xFFFFF →
  Forall (λ item, name_ok (packed_name item.1)) listing →
  Z.of_nat (archive_size listing) < 2 ^ 32 →
  is_mask_arc lower archive_path = true ∨ (4 ≤ last_size listing)%nat →
  ∃ content entries,
    pack_files cp932 listing = Return content
    ∧ try_open lower {| file_path := archive_path; file_content := content |}
      = Return (Some {| arc_file := archive_path; arc_entries := entries |})
    ∧ Forall2 (resolves content) entries listing.
Proof.
  intros Hcp Hn Hnames Hsize Htype.
  unfold pack_files, archive_size in *.
  set (record := λ '(relpath, data), (packed_name relpath, data)).
  set (entries := record <$> listing).
  assert (length entries = length listing) as Hlen
    by apply length_fmap.
  assert (snd <$> entries = snd <$> listing) as Hdatas.
  { unfold entries. rewrite <- list_fmap_compose.
    apply list_fmap_ext. by intros ? [??]. }
  assert (last_size entries = last_size listing) as Hlast.
  { unfold last_size, entries. rewrite fmap_last.
    destruct (last listing) as [[??]|]; done. }
  rewrite Hlen.
  destruct (assign_offsets entries (16 + length listing * 24))
    as [placed total] eqn:Hassign.
  destruct (assign_offsets_shape _ _ _ _ Hassign) as [Hfst Htotal].
  rewrite Hdatas in Htotal.
  assert (length placed = length listing) as Hplaced
    by (by rewrite <- Hlen, <- Hfst, length_fmap).
  assert (Forall (λ '(name, _, _), name_ok name) placed) as Hplaced_names.
  { apply Forall_forall. intros [[name data] offset] Hin.
    apply (list_elem_of_fmap_2 fst) in Hin. rewrite Hfst in Hin.
    apply list_elem_of_fmap_1 in Hin as ([relpath data'] & Hitem & Hin).
    rewrite Forall_forall in Hnames. specialize (Hnames _ Hin).
    simpl in Hitem. by simplify_eq. }
  set (header := le_bytes 4 signature ++ le_bytes 4 (Z.of_nat total)
                 ++ le_bytes 4 (Z.of_nat (length listing)) ++ [0; 1; 0; 0]).
  assert (length (header ++ index_bytes placed)
          = (16 + length listing * 24)%nat) as Hpre.
  { rewrite length_app, index_bytes_length, Hplaced by done. done. }
  set (content := header ++ index_bytes placed ++ mjoin (snd <$> listing)).
  assert (Forall (λ '(name, data, offset),
            (offset + length data ≤ total)%nat
            ∧ (offset + last_size listing ≤ total)%nat
            ∧ slice content offset (offset + length data) = data) placed)
    as Hslices.
  { eapply Forall_impl;
      [apply (assign_offsets_slices _ _ _ _ (header ++ index_bytes placed) []
                Hassign Hpre)|].
    intros [[name data] offset].
    rewrite Hdatas, Hlast, app_nil_r, <- (assoc (++)). done. }
  assert (length content = total) as Hcontent.
  { unfold content. rewrite (assoc (++)), length_app, Hpre. lia. }
  exists content.
  (* the archive written *)
  assert (pack_files_eq :
    (packed_signature ←! pack_uint 4 signature;
     packed_total ←! pack_uint 4 (Z.of_nat total);
     packed_count ←! pack_uint 4 (Z.of_nat (length listing));
     index ←! write_index cp932 placed;
     Return (packed_signature ++ packed_total ++ packed_count ++ [0; 1; 0; 0]
             ++ index ++ mjoin ((λ '(_, data, _), data) <$> placed)))
    = Return content).
  { destruct (unpack_pack 4 signature) as [-> _]; [done|].
    destruct (unpack_pack 4 (Z.of_nat total)) as [-> _]; [lia|].
    destruct (unpack_pack 4 (Z.of_nat (length listing))) as [-> _]; [lia|].
    cbn [bind]. rewrite write_index_ok; [|done|].
    - cbn [bind]. unfold content, header. rewrite <- !(assoc (++)).
      do 6 f_equal. rewrite <- Hdatas, <- Hfst, <- list_fmap_compose.
      f_equal. apply list_fmap_ext. by intros ? [[??]?].
    - apply Forall_forall. intros [[name data] offset] Hin.
      rewrite Forall_forall in Hplaced_names, Hslices.
      specialize (Hplaced_names _ Hin). specialize (Hslices _ Hin).
      cbn beta iota in *. split; [done|]. lia. }
  (* and read back *)
  set (f := {| file_path := archive_path; file_content := content |}).
  assert (getsize f = Z.of_nat total) as Hgetsize
    by (unfold getsize, f; cbn [file_content]; by rewrite Hcontent).
  destruct (packed_header_reads f (Z.of_nat total) (Z.of_nat (length listing))
              (index_bytes placed ++ mjoin (snd <$> listing)))
    as (Hread_size & Hread_count & Hread_level & Hread_entries);
    [unfold f, content, header; cbn [file_content];
     by rewrite <- !(assoc (++))|lia|lia|].
  destruct (entries_loop_packed detect_file_type f (is_mask_arc lower archive_path)
              (Z.of_nat (length listing)) placed header
              (mjoin (snd <$> listing)) 0 [])
    as (es & Hloop & Hes); [done| |lia|].
  { apply Forall_forall. intros [[name data] offset] Hin.
    rewrite Forall_forall in Hplaced_names, Hslices.
    specialize (Hplaced_names _ Hin). specialize (Hslices _ Hin).
    cbn beta iota in *. destruct Hslices as (Hin_total & Hroom & _).
    split; [done|]. split; [lia|]. split; [lia|]. split; [lia|].
    destruct Htype as [Hmask|Hlast4]; [by left|right].
    apply detect_file_type_returns; lia. }
  exists es. split; [done|]. split.
  - unfold try_open, try_open_with. fold f.
    rewrite Hread_size, Hread_count, Hread_level, Hread_entries.
    cbn [bind]. rewrite Hgetsize.
    rewrite bool_decide_eq_false_2 by (intros Hne; by apply Hne).
    rewrite bool_decide_eq_false_2 by lia.
    rewrite bool_decide_eq_false_2 by lia.
    rewrite (bool_decide_eq_false_2 (0 ≠ 0)) by (intros Hne; by apply Hne).
    cbn [andb bind]. rewrite Nat2Z.id.
    change 16%nat with (length header).
    change (file_path f) with archive_path.
    rewrite Hplaced in Hloop. rewrite Hloop. done.
  - apply Forall2_and_r with (P := λ '(name, data, offset),
      slice content offset (offset + length data) = data) in Hes.
    2: { eapply Forall_impl; [apply Hslices|]. by intros [[??]?] (_ & _ & ?). }
    assert (Forall2 (λ e (item : str * bytes),
              entry_name e = item.1
              ∧ slice content (Z.to_nat (entry_offset e))
                  (Z.to_nat (entry_offset e + entry_size e)) = item.2)
              es (fst <$> placed)) as Hes'.
    { apply Forall2_fmap_r. eapply Forall2_impl; [apply Hes|].
      intros e [[name data] offset] [(Hname & Hoff & Hsz) Hslice].
      cbn [fst snd]. split; [done|].
      rewrite Hoff, Hsz, <- Nat2Z.inj_add, !Nat2Z.id. done. }
    rewrite Hfst in Hes'. unfold entries in Hes'.
    apply Forall2_fmap_r in Hes'.
    eapply Forall2_impl; [apply Hes'|].
    intros e [relpath data] [Hname Hslice]. by split.
Qed.

Lemma cp932_fragment_ascii c : 0 ≤ c < 128 → cp932_fragment c = Some [c].
Proof. intros Hc. unfold cp932_fragment. by rewrite bool_decide_eq_true_2. Qed.

Lemma pack_then_open_witness :
  ∃ content entries,
    pack_files cp932_fragment sample_listing = Return content
    ∧ try_open lower_fragment
        {| file_path := str_of "game/data.arc"; file_content := content |}
      = Return (Some {| arc_file := str_of "game/data.arc";
                        arc_entries := entries |})
    ∧ Forall2 (resolves content) entries sample_listing.
Proof.
  apply (pack_then_open lower_fragment cp932_fragment sample_listing
           (str_of "game/data.arc")).
  - apply cp932_fragment_ascii.
  - simpl. lia.
  - apply (bool_decide_unpack _). by vm_compute.
  - by vm_compute.
  - right. vm_compute. lia.
Defined.

(** C3, as stated, fails: the archive packed from an empty directory has
    an entry count of 0, which [try_open] rejects. *)
Lemma pack_empty_directory_rejected :
  pack_files cp932_fragment []
    = Return (le_bytes 4 signature ++ le_bytes 4 0x10 ++ le_bytes 4 0
              ++ [0; 1; 0; 0])
  ∧ (∀ lower,
       try_open lower
         {| file_path := str_of "game/data.arc";
            file_content := le_bytes 4 signature ++ le_bytes 4 0x10
                            ++ le_bytes 4 0 ++ [0; 1; 0; 0] |}
       = Return None)
  ∧ (∀ lower, ¬ pack_then_open_always lower cp932_fragment).
Proof.
  split; [reflexivity|]. split; [reflexivity|].
  intros lower Halways.
  destruct (Halways [] (str_of "game/data.arc"))
    as (content & entries & Hpack & Hopen & _).
  vm_compute in Hpack. injection Hpack as <-.
  vm_compute in Hopen. discriminate.
Qed.

(** C4 fails on the code. A name of 17 characters is written as 17
    bytes, not cut to 16, so the index record has 0x19 bytes while the
    offsets and the total size are computed for records of 0x18 bytes;
    the archive written is one byte longer than its declared size and
    [try_open] rejects it. Padding is counted in characters, so a name
    with a two-byte character is written as 17 bytes as well. *)
Theorem long_name_not_truncated (lower : str → str) :
  name_field cp932_fragment (str_of "ABCDEFGHIJKLMNOPQ")
    = Return (str_of "ABCDEFGHIJKLMNOPQ")
  ∧ (∃ content,
       pack_files cp932_fragment long_name_listing = Return content
       ∧ length content = (0x10 + 0x19 + 4)%nat
       ∧ read_uint32 {| file_path := str_of "data.arc"; file_content := content |} 4
         = Return (0x10 + 0x18 + 4)
       ∧ try_open lower
           {| file_path := str_of "data.arc"; file_content := content |}
         = Return None)
  ∧ name_field cp932_fragment [0x3042] = Return ([0x82; 0xA0] ++ replicate 15 0).
Proof.
  split; [reflexivity|]. split; [|reflexivity].
  eexists. split; [reflexivity|]. repeat split; reflexivity.
Qed.

(** The budget of the folder cursor is enough: with one iteration per
    folder still ahead, the loop does not run out. *)
Lemma advance_folder_no_timeout fs count i :
  ∀ fuel cur folder next_folder,
    (length fs - folder ≤ fuel)%nat →
    advance_folder fuel (Some fs) count i cur folder next_folder ≠ Timeout.
Proof.
  induction fuel as [|fuel IH]; intros cur folder next_folder Hfuel.
  - simpl. case_bool_decide; [|done]. by rewrite bool_decide_eq_false_2 by lia.
  - cbn [advance_folder]. case_bool_decide; [|done].
    case_bool_decide as Hin; [|done].
    destruct (lookup_lt_is_Some_2 fs folder Hin) as [fo ->].
    case_bool_decide; cbn [bind]; [apply IH; lia|].
    unfold folder_index_at.
    destruct (lookup_lt_is_Some_2 fs (folder + 1)) as [fo' ->]; [lia|].
    cbn [bind]. apply IH. lia.
Qed.

(** The index resolved for the sample archive with two folders. *)
Example two_folder_names :
  (λ arc, entry_name <$> arc_entries arc) <$$> try_open lower_fragment two_folder_archive
  = Return (Some [str_of "AA/a"; str_of "AA/b"; str_of "AA/c";
                  str_of "BB/d"; str_of "BB/e"]).
Proof. reflexivity. Qed.

(** * Further properties of the run-length codec *)

Lemma rle_decode_loop_fuel_le input p fuel fuel' i out result :
  (fuel ≤ fuel')%nat →
  rle_decode_loop fuel input p i out = Return result →
  rle_decode_loop fuel' input p i out = Return result.
Proof.
  induction 1 as [|fuel' _ IH]; [done|].
  intros H. by apply rle_decode_loop_fuel_S, IH.
Qed.

(** The output accumulated before the loop is only ever extended. *)
Lemma rle_decode_loop_acc input p acc :
  ∀ fuel i out result,
    rle_decode_loop fuel input p i out = Return result →
    rle_decode_loop fuel input p i (acc ++ out) = Return (acc ++ result).
Proof.
  induction fuel as [|fuel IH]; intros i out result H.
  - destruct (decide (i < length input)%nat) as [Hi|Hi].
    + by rewrite rle_decode_loop_0 in H.
    + rewrite rle_decode_loop_done in H |- * by done. congruence.
  - destruct (decide (i < length input)%nat) as [Hi|Hi].
    + rewrite rle_decode_loop_step in H |- * by done.
      unfold rle_decode_body in *.
      destruct (input !! i) as [code|]; [|done].
      cbn zeta in *. case_bool_decide; cbn [bind] in *;
        rewrite <- (assoc (++)); by apply IH.
    + rewrite rle_decode_loop_done in H |- * by done. congruence.
Qed.

Lemma stream_app segs1 segs2 : stream (segs1 ++ segs2) = stream segs1 ++ stream segs2.
Proof. unfold stream. by rewrite fmap_app, join_app. Qed.

Lemma pixels_app segs1 segs2 : pixels (segs1 ++ segs2) = pixels segs1 ++ pixels segs2.
Proof. unfold pixels. by rewrite fmap_app, join_app. Qed.

Lemma rle_decode_loop_stream_then p segs :
  Forall (seg_shape p) segs →
  ∀ fuel rest out result,
    rle_decode_loop fuel rest p 0 (out ++ pixels segs) = Return result →
    rle_decode_loop (length (stream segs) + fuel) (stream segs ++ rest) p 0 out
    = Return result.
Proof.
  induction 1 as [|seg segs Hseg _ IH]; intros fuel rest out result H.
  - simpl. by rewrite app_nil_r in H.
  - rewrite stream_cons, pixels_cons in *. rewrite <- (assoc (++)).
    rewrite (assoc (++)) in H. apply IH in H.
    destruct seg as [c pl|c px]; simpl in Hseg; destruct Hseg as [Hc Hlen];
      cbn [seg_bytes seg_pixels] in *; simpl length;
      rewrite Nat.add_succ_l; cbn [app];
      rewrite rle_decode_loop_step by (simpl; lia).
    + rewrite (rle_decode_body_literal _ _ _ _ (Z.of_nat c)) by (done || lia).
      rewrite Nat2Z.id, <- Hlen. simpl.
      rewrite rle_decode_loop_past_segment, slice_payload.
      eapply rle_decode_loop_fuel_le; [|done]. rewrite length_app. lia.
    + destruct (repeat_tag c Hc) as [Htag Hcount].
      rewrite (rle_decode_body_repeat _ _ _ _ (Z.lor 0x80 (Z.of_nat c)))
        by (done || lia).
      rewrite Hcount. subst p. simpl.
      rewrite rle_decode_loop_past_segment, slice_payload.
      eapply rle_decode_loop_fuel_le; [|done]. rewrite length_app. lia.
Qed.

(** X1. Decoding is compositional: a stream of well-shaped segments
    followed by any further bytes decodes to the pixels of the segments
    followed by what the further bytes decode to. *)
Theorem rle_decode_app (pixel_size : nat) (segs : list segment)
    (rest output : bytes) :
  Forall (seg_shape pixel_size) segs →
  rle_decode rest pixel_size = Return output →
  rle_decode (stream segs ++ rest) pixel_size = Return (pixels segs ++ output).
Proof.
  intros Hsegs Hrest. unfold rle_decode in *. rewrite length_app.
  apply rle_decode_loop_stream_then; [done|].
  change ([] ++ pixels segs) with (pixels segs).
  rewrite <- (app_nil_r (pixels segs)) at 1.
  by apply rle_decode_loop_acc.
Qed.

Lemma rle_decode_app_witness :
  rle_decode (stream [Repeat 3 [7]; Literal 2 [1; 2]] ++ [0x82; 9]) 1
  = Return (pixels [Repeat 3 [7]; Literal 2 [1; 2]] ++ [9; 9]).
Proof.
  apply (rle_decode_app 1 [Repeat 3 [7]; Literal 2 [1; 2]] [0x82; 9] [9; 9]).
  - repeat constructor.
  - reflexivity.
Defined.

Lemma run_scan_outside fuel d p s i :
  (length d < i + p)%nat → run_scan fuel d p s i = i.
Proof.
  intros Hout. destruct fuel as [|fuel]; [done|].
  rewrite run_scan_S. by rewrite bool_decide_eq_false_2 by lia.
Qed.

Lemma literal_scan_outside fuel d p s i :
  (length d < i + p)%nat → literal_scan fuel d p s i = i.
Proof.
  intros Hout. destruct fuel as [|fuel]; [done|].
  rewrite literal_scan_S. by rewrite bool_decide_eq_false_2 by lia.
Qed.

Section ragged_buffer.
Variables (d : bytes) (p n r : nat).
Hypothesis Hp : (1 ≤ p)%nat.
Hypothesis Hlen : length d = (n * p + r)%nat.
Hypothesis Hr : (1 ≤ r < p)%nat.

(** On a buffer that ends in part of a pixel, the encoder emits
    well-shaped segments for the whole pixels and then a literal of
    count 1 that carries the bytes left over. *)
Lemma rle_encode_loop_ragged :
  ∀ fuel k out, (k ≤ n)%nat → (n - k + 1 ≤ fuel)%nat →
    ∃ segs,
      rle_encode_loop fuel d p (k * p) out
      = Return (out ++ stream segs ++ 1 :: drop (n * p) d)
      ∧ Forall (seg_shape p) segs
      ∧ pixels segs = slice d (k * p) (n * p).
Proof.
  induction fuel as [|fuel IH]; intros k out Hk Hfuel; [lia|].
  destruct (decide (k = n)) as [->|Hkn].
  { exists []. cbn [rle_encode_loop]. rewrite bool_decide_eq_true_2 by lia.
    rewrite run_scan_outside by lia.
    rewrite (bool_decide_eq_false_2 (p = 0%nat)) by lia.
    rewrite Nat.sub_diag, Nat.Div0.div_0_l.
    rewrite (bool_decide_eq_false_2 (1 < 0)%nat) by lia.
    rewrite literal_scan_outside by lia.
    replace (n * p + p - n * p)%nat with p by lia.
    rewrite Nat.div_same by lia.
    rewrite rle_encode_loop_done by lia.
    split; [|split; [constructor|]].
    - do 2 f_equal. simpl. f_equal. unfold slice. apply take_ge.
      rewrite length_drop. lia.
    - unfold slice. by rewrite Nat.sub_diag. }
  assert (S k * p ≤ n * p)%nat by (apply Nat.mul_le_mono_r; lia).
  assert (k * p + p ≤ length d)%nat as Hin by lia.
  cbn [rle_encode_loop]. rewrite bool_decide_eq_true_2 by lia.
  rewrite (bool_decide_eq_false_2 (p = 0%nat)) by lia.
  destruct (run_scan_start d p (k * p) Hp 127 ltac:(lia) Hin)
    as (c & -> & Hc & Hcin & Hrun).
  replace (k * p + c * p - k * p)%nat with (c * p)%nat by lia.
  rewrite Nat.div_mul by lia.
  case_bool_decide as Hrun1.
  - assert (k * p + c * p ≤ n * p)%nat as Hwhole.
    { (* the run compares whole pixels only *)
      destruct (decide (k + c ≤ n)%nat) as [Hle|Hgt].
      - replace (k * p + c * p)%nat with ((k + c) * p)%nat by lia.
        by apply Nat.mul_le_mono_r.
      - assert (S n * p ≤ (k + c) * p)%nat
          by (apply Nat.mul_le_mono_r; lia). lia. }
    assert (k + c ≤ n)%nat by (apply (Nat.mul_le_mono_pos_r _ _ p); lia).
    replace (k * p + c * p)%nat with ((k + c) * p)%nat in * by lia.
    destruct (IH (k + c)%nat
      (out ++ [Z.lor 0x80 (Z.of_nat c)] ++ slice d (k * p) (k * p + p)))
      as (segs & -> & Hshape & Hpx); [lia..|].
    exists (Repeat c (slice d (k * p) (k * p + p)) :: segs).
    split; [by rewrite stream_cons, <- !(assoc (++))|].
    split; [constructor; [|done]|].
    + split; [lia|]. rewrite slice_length; lia.
    + rewrite pixels_cons, Hpx. simpl. rewrite <- Hrun.
      symmetry. apply slice_split; lia.
  - destruct (literal_scan_start d p (k * p) Hp 127 Hin) as (l & -> & Hl & Hlin).
    replace (k * p + l * p - k * p)%nat with (l * p)%nat by lia.
    rewrite Nat.div_mul by lia.
    assert (k * p + l * p ≤ n * p)%nat as Hwhole.
    { destruct (decide (k + l ≤ n)%nat) as [Hle|Hgt].
      - replace (k * p + l * p)%nat with ((k + l) * p)%nat by lia.
        by apply Nat.mul_le_mono_r.
      - assert (S n * p ≤ (k + l) * p)%nat
          by (apply Nat.mul_le_mono_r; lia). lia. }
    assert (k + l ≤ n)%nat by (apply (Nat.mul_le_mono_pos_r _ _ p); lia).
    replace (k * p + l * p)%nat with ((k + l) * p)%nat in * by lia.
    destruct (IH (k + l)%nat
      (out ++ [Z.of_nat l] ++ slice d (k * p) ((k + l) * p)))
      as (segs & -> & Hshape & Hpx); [lia..|].
    exists (Literal l (slice d (k * p) ((k + l) * p)) :: segs).
    split; [by rewrite stream_cons, <- !(assoc (++))|].
    split; [constructor; [|done]|].
    + split; [lia|]. rewrite slice_length; lia.
    + rewrite pixels_cons, Hpx. simpl. symmetry. apply slice_split; lia.
Qed.
End ragged_buffer.

Lemma rle_decode_short_literal (partial : bytes) (p : nat) :
  (length partial ≤ p)%nat → rle_decode (1 :: partial) p = Return partial.
Proof.
  intros Hlen. unfold rle_decode. simpl length.
  rewrite rle_decode_loop_step by (simpl; lia).
  rewrite (rle_decode_body_literal _ _ _ _ 1) by done.
  cbn [bind]. rewrite rle_decode_loop_done by (simpl; lia).
  f_equal. unfold slice. simpl. apply take_ge. lia.
Qed.

(** X2. For every pixel size of at least 1 the encoder returns on every
    buffer, also one whose length is not a multiple of the pixel size,
    and decoding its output gives the buffer back. *)
Theorem rle_round_trip_any_length (b : bytes) (pixel_size : nat) :
  (1 ≤ pixel_size)%nat →
  ∃ encoded, rle_encode b pixel_size = Return encoded
    ∧ rle_decode encoded pixel_size = Return b.
Proof.
  intros Hp.
  destruct (decide (length b `mod` pixel_size = 0)%nat) as [Hmod|Hmod].
  { destruct (rle_encode_segments b pixel_size Hp Hmod)
      as (segs & Henc & Hshape & _ & Hpx).
    exists (stream segs). split; [done|]. by rewrite rle_decode_stream, Hpx. }
  set (n := (length b / pixel_size)%nat).
  set (r := (length b `mod` pixel_size)%nat) in *.
  assert (length b = n * pixel_size + r)%nat as Hlen.
  { rewrite (Nat.div_mod (length b) pixel_size) at 1 by lia. unfold n, r. lia. }
  assert (1 ≤ r < pixel_size)%nat as Hr.
  { split; [lia|]. apply Nat.mod_upper_bound. lia. }
  assert (n * 1 ≤ n * pixel_size)%nat by (apply Nat.mul_le_mono_l; lia).
  destruct (rle_encode_loop_ragged b pixel_size n r Hp Hlen Hr (length b) 0 [])
    as (segs & Henc & Hshape & Hpx); [lia..|].
  eexists. split; [exact Henc|].
  rewrite app_nil_l. unfold rle_decode. rewrite length_app.
  apply rle_decode_loop_stream_then; [done|].
  change ([] ++ pixels segs) with (pixels segs).
  rewrite <- (app_nil_r (pixels segs)) at 1.
  replace b with (pixels segs ++ drop (n * pixel_size) b) at 3.
  - apply rle_decode_loop_acc. apply rle_decode_short_literal.
    rewrite length_drop. lia.
  - rewrite Hpx. unfold slice. simpl. rewrite drop_0, Nat.sub_0_r.
    apply take_drop.
Qed.

Lemma rle_round_trip_any_length_witness :
  ∃ encoded, rle_encode [1; 2; 1; 2; 1; 2; 3; 4; 5] 2 = Return encoded
    ∧ rle_decode encoded 2 = Return [1; 2; 1; 2; 1; 2; 3; 4; 5].
Proof. apply (rle_round_trip_any_length [1; 2; 1; 2; 1; 2; 3; 4; 5] 2). lia. Defined.

Lemma bytes_mul_nil (n : nat) : bytes_mul [] n = [].
Proof. induction n as [|n IH]; [done|]. unfold bytes_mul in *. simpl. by rewrite IH. Qed.

Lemma parse_segments_pixel_size_0 fuel :
  ∀ input, pixels (parse_segments fuel input 0) = [].
Proof.
  induction fuel as [|fuel IH]; intros input; [done|].
  destruct input as [|code rest]; [done|].
  cbn [parse_segments]. case_bool_decide; rewrite pixels_cons, IH; simpl.
  - by rewrite Nat.mul_0_r.
  - by rewrite bytes_mul_nil.
Qed.

(** X3. With a pixel size of 0 the encoder divides by zero on every
    buffer that is not empty, and the decoder, whose literal and repeat
    runs are then all empty, returns the empty buffer on every input. *)
Theorem pixel_size_zero (x : Z) (b : bytes) :
  rle_encode (x :: b) 0 = Raise ZeroDivisionError
  ∧ rle_encode [] 0 = Return []
  ∧ rle_decode (x :: b) 0 = Return [].
Proof.
  split; [|split; [done|]].
  - unfold rle_encode. simpl length. cbn [rle_encode_loop].
    by rewrite bool_decide_eq_true_2 by (simpl; lia).
  - unfold rle_decode. rewrite rle_decode_loop_parse by done.
    by rewrite parse_segments_pixel_size_0.
Qed.

Lemma bytes_mul_length (px : bytes) (n : nat) :
  length (bytes_mul px n) = (n * length px)%nat.
Proof.
  induction n as [|n IH]; [done|].
  unfold bytes_mul in *. simpl. rewrite length_app, IH. lia.
Qed.

Lemma stream_length_bound p segs :
  Forall (seg_shape p) segs → Forall seg_count_ok segs →
  (p * length (stream segs) ≤ (p + 1) * length (pixels segs))%nat.
Proof.
  induction 1 as [|seg segs Hshape _ IH]; intros Hcount; [simpl; lia|].
  apply Forall_cons in Hcount as [Hseg Hcount]. specialize (IH Hcount).
  rewrite stream_cons, pixels_cons, !length_app.
  assert (p * length (seg_bytes seg) ≤ (p + 1) * length (seg_pixels seg))%nat;
    [|lia].
  destruct seg as [c pl|c px]; simpl in *.
  - destruct Hshape as [_ ->].
    assert (1 * p ≤ c * p)%nat by (apply Nat.mul_le_mono_r; lia). lia.
  - destruct Hshape as [_ Hpx]. rewrite bytes_mul_length, Hpx.
    assert (2 * p ≤ c * p)%nat by (apply Nat.mul_le_mono_r; lia).
    assert (p * (c * p) = c * p * p)%nat by lia.
    assert (2 * p * p ≤ c * p * p)%nat by (apply Nat.mul_le_mono_r; lia).
    lia.
Qed.

(** X4. The encoder never expands a buffer of whole pixels by more than
    one byte per pixel: [p * len(encoded) <= (p + 1) * len(b)], so the
    output is at most twice as long as the input. *)
Theorem rle_encode_expansion (b : bytes) (pixel_size : nat) :
  (1 ≤ pixel_size)%nat → (length b `mod` pixel_size = 0)%nat →
  ∃ encoded, rle_encode b pixel_size = Return encoded
    ∧ (pixel_size * length encoded ≤ (pixel_size + 1) * length b)%nat
    ∧ (length encoded ≤ 2 * length b)%nat.
Proof.
  intros Hp Hmod.
  destruct (rle_encode_segments b pixel_size Hp Hmod)
    as (segs & Henc & Hshape & Hcount & Hpx).
  exists (stream segs). split; [done|].
  pose proof (stream_length_bound pixel_size segs Hshape Hcount) as Hbound.
  rewrite Hpx in Hbound. split; [done|].
  apply (Nat.mul_le_mono_pos_l _ _ pixel_size); [lia|].
  assert (1 * length b ≤ pixel_size * length b)%nat
    by (apply Nat.mul_le_mono_r; lia).
  lia.
Qed.

Lemma rle_encode_expansion_witness :
  ∃ encoded, rle_encode [1; 2; 3; 4; 5; 6] 2 = Return encoded
    ∧ (2 * length encoded ≤ (2 + 1) * length [1; 2; 3; 4; 5; 6])%nat
    ∧ (length encoded ≤ 2 * length [1; 2; 3; 4; 5; 6])%nat.
Proof. apply (rle_encode_expansion [1; 2; 3; 4; 5; 6] 2); [lia|reflexivity]. Defined.

Lemma land_7f_bound (code : Z) : (Z.to_nat (Z.land code 0x7f) ≤ 127)%nat.
Proof.
  change 0x7f with (Z.ones 7). rewrite Z.land_ones by lia.
  pose proof (Z.mod_pos_bound code (2 ^ 7)). lia.
Qed.

Lemma parse_segments_pixels_bound p fuel :
  ∀ input,
    (length (pixels (parse_segments fuel input p)) ≤ 127 * p * length input)%nat.
Proof.
  induction fuel as [|fuel IH]; intros input; [simpl; lia|].
  destruct input as [|code rest]; [simpl; lia|].
  cbn [parse_segments]. case_bool_decide as Hcode.
  - rewrite pixels_cons, length_app. cbn [seg_pixels].
    specialize (IH (drop (Z.to_nat code * p) rest)).
    rewrite length_drop in IH. rewrite length_take. simpl length.
    assert (Z.to_nat code * p ≤ 127 * p)%nat
      by (apply Nat.mul_le_mono_r; lia).
    assert (127 * p * (length rest - Z.to_nat code * p)
            ≤ 127 * p * length rest)%nat
      by (apply Nat.mul_le_mono_l; lia).
    lia.
  - rewrite pixels_cons, length_app. cbn [seg_pixels].
    specialize (IH (drop p rest)).
    rewrite length_drop in IH. rewrite bytes_mul_length, length_take.
    simpl length.
    pose proof (land_7f_bound code) as Hcount.
    assert (Z.to_nat (Z.land code 127) * (p `min` length rest)
            ≤ 127 * p)%nat
      by (apply Nat.mul_le_mono; lia).
    assert (127 * p * (length rest - p) ≤ 127 * p * length rest)%nat
      by (apply Nat.mul_le_mono_l; lia).
    lia.
Qed.

(** X5. The decoder returns at most 127 pixels per input byte: its
    output is never longer than [127 * pixel_size * len(input)]. *)
Theorem rle_decode_output_bound (input_data : bytes) (pixel_size : nat) :
  ∃ output, rle_decode input_data pixel_size = Return output
    ∧ (length output ≤ 127 * pixel_size * length input_data)%nat.
Proof.
  eexists. split.
  - unfold rle_decode. by rewrite rle_decode_loop_parse.
  - apply parse_segments_pixels_bound.
Qed.

(** While the pixels keep equal to the first one the run scan goes on,
    up to 127 pixels or the end of the buffer. *)
Lemma run_scan_run d p s k :
  (1 ≤ p)%nat → (k ≤ 127)%nat → (s + k * p ≤ length d)%nat →
  (∀ j, (j < k)%nat → slice d (s + j * p) (s + j * p + p) = slice d s (s + p)) →
  k = 127%nat ∨ (length d < s + k * p + p)%nat →
  ∀ fuel m, (m ≤ k)%nat → (k - m ≤ fuel)%nat →
    run_scan fuel d p s (s + m * p) = (s + k * p)%nat.
Proof.
  intros Hp Hk Hin Hsame Hend.
  induction fuel as [|fuel IH]; intros m Hm Hfuel.
  { simpl. by replace m with k by lia. }
  rewrite run_scan_S. destruct (decide (m = k)) as [->|Hmk].
  - destruct Hend as [->|Hout].
    + rewrite (bool_decide_eq_false_2 (_ < _)%nat) by lia.
      by rewrite andb_false_r.
    + by rewrite bool_decide_eq_false_2 by lia.
  - assert (S m * p ≤ k * p)%nat by (apply Nat.mul_le_mono_r; lia).
    assert (m * p < 127 * p)%nat by (apply Nat.mul_lt_mono_pos_r; lia).
    rewrite bool_decide_eq_true_2 by lia.
    rewrite bool_decide_eq_true_2 by lia. cbn [andb].
    rewrite bool_decide_eq_false_2
      by (intros Hne; apply Hne, Hsame; lia).
    replace (s + m * p + p)%nat with (s + S m * p)%nat by lia.
    apply IH; lia.
Qed.

Lemma bytes_mul_S (px : bytes) (k : nat) : bytes_mul px (S k) = px ++ bytes_mul px k.
Proof. done. Qed.

Lemma bytes_mul_pixel (px : bytes) (k j : nat) :
  (j < k)%nat →
  slice (bytes_mul px k) (j * length px) (j * length px + length px) = px.
Proof.
  revert j. induction k as [|k IH]; intros j Hj; [lia|].
  rewrite bytes_mul_S. destruct j as [|j].
  - simpl. apply slice_0_app.
  - replace (S j * length px)%nat with (length px + j * length px)%nat by lia.
    rewrite <- Nat.add_assoc, slice_app_shift. apply IH. lia.
Qed.

(** X6. A buffer of [k] equal pixels, [2 <= k <= 127], is encoded as one
    repeat segment: the tag [0x80 | k] and the pixel once. *)
Theorem rle_encode_constant_run (pixel : bytes) (k : nat) :
  pixel ≠ [] → (2 ≤ k ≤ 127)%nat →
  rle_encode (bytes_mul pixel k) (length pixel)
  = Return (Z.lor 0x80 (Z.of_nat k) :: pixel).
Proof.
  intros Hpx Hk. set (p := length pixel).
  assert (1 ≤ p)%nat by (destruct pixel; [done|simpl in p; lia]).
  assert (length (bytes_mul pixel k) = k * p)%nat as Hlen
    by apply bytes_mul_length.
  assert (1 * p ≤ k * p)%nat by (apply Nat.mul_le_mono_r; lia).
  unfold rle_encode. fold p.
  assert (∃ fuel, length (bytes_mul pixel k) = S fuel) as [fuel Hfuel]
    by (exists (k * p - 1)%nat; lia).
  rewrite Hfuel at 1. cbn [rle_encode_loop].
  rewrite bool_decide_eq_true_2 by lia.
  rewrite (bool_decide_eq_false_2 (p = 0%nat)) by lia.
  assert (run_scan 127 (bytes_mul pixel k) p 0 0 = (k * p)%nat) as ->.
  { apply (run_scan_run (bytes_mul pixel k) p 0 k ltac:(lia) ltac:(lia)
             ltac:(lia)) with (m := 0%nat); [|lia..].
    intros j Hj. unfold p. simpl. rewrite (bytes_mul_pixel pixel k j Hj).
    symmetry. apply (bytes_mul_pixel pixel k 0). lia. }
  rewrite Nat.sub_0_r, Nat.div_mul by lia.
  rewrite bool_decide_eq_true_2 by lia.
  rewrite rle_encode_loop_done by lia.
  unfold p. simpl. do 2 f_equal. apply (bytes_mul_pixel pixel k 0). lia.
Qed.

Lemma rle_encode_constant_run_witness :
  rle_encode (bytes_mul [7; 8; 9] 5) (length [7; 8; 9])
  = Return (Z.lor 0x80 (Z.of_nat 5) :: [7; 8; 9]).
Proof. apply (rle_encode_constant_run [7; 8; 9] 5); [done|lia]. Defined.

(** X7. On a buffer of bytes whose length is a multiple of the pixel
    size, every value the encoder appends to its [bytearray] is a byte:
    neither [append] nor [extend] can raise. *)
Theorem rle_encode_output_bytes (b : bytes) (pixel_size : nat) :
  (1 ≤ pixel_size)%nat → (length b `mod` pixel_size = 0)%nat → is_bytes b →
  ∃ encoded, rle_encode b pixel_size = Return encoded ∧ is_bytes encoded.
Proof.
  intros Hp Hmod Hb.
  destruct (rle_encode_segments b pixel_size Hp Hmod)
    as (segs & -> & Hshape & Hcount & Hpx).
  exists (stream segs). split; [done|].
  apply (stream_is_bytes pixel_size); [done..|by rewrite Hpx].
Qed.

Lemma rle_encode_output_bytes_witness :
  ∃ encoded, rle_encode [255; 255; 0; 1] 1 = Return encoded ∧ is_bytes encoded.
Proof.
  apply (rle_encode_output_bytes [255; 255; 0; 1] 1); [lia|reflexivity|].
  repeat constructor; lia.
Defined.

(** * Channel swaps and the raster file *)

Lemma range3_step (n : nat) :
  range3 (S (S (S n))) = 0%nat :: ((λ i, 3 + i)%nat <$> range3 n).
Proof.
  unfold range3.
  replace ((S (S (S n)) + 2) / 3)%nat with (S ((n + 2) / 3)).
  - cbn [seq fmap list_fmap]. f_equal.
    rewrite <- fmap_S_seq, <- !list_fmap_compose.
    apply list_fmap_ext. intros _ k _. simpl. lia.
  - replace (S (S (S n)) + 2)%nat with (1 * 3 + (n + 2))%nat by lia.
    rewrite Nat.div_add_l by lia. lia.
Qed.

Lemma bytes_ind3 (P : bytes → Prop) :
  P [] → (∀ a, P [a]) → (∀ a b, P [a; b]) →
  (∀ a b c rest, P rest → P (a :: b :: c :: rest)) →
  ∀ data, P data.
Proof.
  intros H0 H1 H2 H3 data.
  assert (P data ∧ (∀ a, P (a :: data)) ∧ (∀ a b, P (a :: b :: data)))
    as [? _]; [|done].
  induction data as [|x data (IH0 & IH1 & IH2)]; [by repeat split|].
  split; [apply IH1|]. split; [intros a; apply IH2|].
  intros a b. by apply H3.
Qed.

(** Both comprehensions reverse the buffer triple by triple. *)
Lemma swap_reversed_swap3 (data : bytes) : swap_reversed data = swap3 data.
Proof.
  induction data as [|a|a b|a b c rest IH] using bytes_ind3; [done..|].
  unfold swap_reversed in *. simpl length.
  rewrite range3_step, fmap_cons, mjoin_cons, <- list_fmap_compose.
  cbn [swap3]. change (reverse (slice (a :: b :: c :: rest) 0 (0 + 3)))
    with [c; b; a].
  cbn [app]. do 3 f_equal. by rewrite <- IH.
Qed.

Lemma swap_indexed_swap3 (data : bytes) : swap_indexed data = swap3 data.
Proof.
  induction data as [|a|a b|a b c rest IH] using bytes_ind3; [done..|].
  unfold swap_indexed in *. simpl length.
  rewrite range3_step, fmap_cons, mjoin_cons, <- list_fmap_compose.
  cbn [swap3].
  change (slice (a :: b :: c :: rest) (0 + 2) (0 + 3)
          ++ slice (a :: b :: c :: rest) (0 + 1) (0 + 2)
          ++ slice (a :: b :: c :: rest) 0 (0 + 1)) with [c; b; a].
  cbn [app]. do 3 f_equal. by rewrite <- IH.
Qed.

Lemma swap3_involutive (data : bytes) : swap3 (swap3 data) = data.
Proof.
  induction data as [|a|a b|a b c rest IH] using bytes_ind3; [done..|].
  simpl. by rewrite IH.
Qed.

Lemma swap3_length (data : bytes) : length (swap3 data) = length data.
Proof.
  induction data as [|a|a b|a b c rest IH] using bytes_ind3; [done..|].
  simpl. by rewrite IH.
Qed.

(** X8. The channel swap of the reader ([data[i:i+3][::-1]]) and the one
    of the writer ([data[i+2:i+3] + data[i+1:i+2] + data[i:i+1]]) are the
    same function on every buffer; it keeps the length, and applying it
    twice gives the buffer back, so the reader undoes the writer's swap. *)
Theorem channel_swaps_agree (data : bytes) :
  swap_reversed data = swap_indexed data
  ∧ length (swap_indexed data) = length data
  ∧ swap_reversed (swap_indexed data) = data.
Proof.
  rewrite swap_indexed_swap3, !swap_reversed_swap3.
  split; [done|]. split; [apply swap3_length|apply swap3_involutive].
Qed.

Lemma cm_header_length md : length (cm_header md) = 0x20%nat.
Proof. done. Qed.

(** X9. A true-colour pixel buffer written by [convert_png_to_cm] is
    read back by [convert_cm_to_png] as it was: for a buffer of whole
    3-byte pixels, with width and height that fit a u16 and a size that
    fits a u32, the reader hands to the image library the mode "RGB",
    the same size and the same bytes, and no palette. *)
Theorem cm_file_round_trip (img_width img_height : Z) (image_data : bytes) :
  0 ≤ img_width < 2 ^ 16 → 0 ≤ img_height < 2 ^ 16 →
  (length image_data `mod` 3 = 0)%nat →
  0x20 + 2 * Z.of_nat (length image_data) < 2 ^ 32 →
  ∃ content,
    convert_png_to_cm_rgb img_width img_height image_data = Return content
    ∧ convert_cm_to_png_image content
      = Return (Some {| img_mode := str_of "RGB";
                        img_size := (img_width, img_height);
                        img_data := image_data;
                        img_palette := None |}).
Proof.
  intros Hwidth Hheight Hmod Hsize.
  unfold convert_png_to_cm_rgb.
  change (Z.to_nat (24 `div` 8)) with 3%nat.
  assert (length (swap_indexed image_data) = length image_data) as Hswap
    by (rewrite swap_indexed_swap3; apply swap3_length).
  destruct (rle_encode_segments (swap_indexed image_data) 3)
    as (segs & -> & Hshape & Hcount & Hpx); [lia|by rewrite Hswap|].
  cbn [bind].
  pose proof (stream_length_bound 3 segs Hshape Hcount) as Hbound.
  rewrite Hpx, Hswap in Hbound.
  set (md := {| size := 0x20 + 0 + Z.of_nat (length (stream segs));
                width := img_width; height := img_height; colors := 0;
                bpp := 24; is_compressed := true; data_offset := 0x20 + 0;
                data_length := Z.of_nat (length (stream segs)) |}).
  rewrite (write_cm_metadata_header md) by (simpl; lia).
  cbn [bind app]. eexists. split; [done|].
  unfold convert_cm_to_png_image.
  rewrite (read_cm_metadata_header md) by
    (simpl; rewrite ?length_app, ?cm_header_length; lia).
  cbn [bind info_of info_colors info_data_offset info_data_length
       info_is_compressed info_bpp info_width info_height
       colors data_offset data_length is_compressed bpp width height md].
  rewrite (bool_decide_eq_false_2 (0 > 0)) by lia.
  change (Z.to_nat (32 + 0)) with (length (cm_header md)).
  rewrite Nat2Z.id.
  rewrite <- (app_nil_r (stream segs)) at 1.
  rewrite slice_app_middle.
  change (Z.to_nat (24 `div` 8)) with 3%nat.
  rewrite rle_decode_stream by done. cbn [bind].
  rewrite (bool_decide_eq_true_2 (24 = 24)) by done.
  rewrite Hpx. do 3 f_equal.
  rewrite swap_indexed_swap3, swap_reversed_swap3. apply swap3_involutive.
Qed.

Lemma cm_file_round_trip_witness :
  ∃ content,
    convert_png_to_cm_rgb 2 1 [10; 20; 30; 10; 20; 30] = Return content
    ∧ convert_cm_to_png_image content
      = Return (Some {| img_mode := str_of "RGB";
                        img_size := (2, 1);
                        img_data := [10; 20; 30; 10; 20; 30];
                        img_palette := None |}).
Proof.
  apply (cm_file_round_trip 2 1 [10; 20; 30; 10; 20; 30]);
    [lia|lia|reflexivity|simpl; lia].
Defined.





Lemma cm_magic_slice (content : bytes) :
  take 2 content = cm_magic → slice (take 32 content) 0 2 = cm_magic.
Proof.
  intros Hmagic. unfold slice. by rewrite drop_0, Nat.sub_0_r, take_take.
Qed.

(** X11. A file that begins with 'CM' but has fewer than 15 bytes makes
    [read_cm_metadata] raise [IndexError] at [header[0x0E]]: it is not
    reported as an invalid file. *)
Theorem read_cm_metadata_short_header (content : bytes) :
  take 2 content = cm_magic → (length content < 15)%nat →
  read_cm_metadata content = Raise IndexError.
Proof.
  intros Hmagic Hlen. unfold read_cm_metadata.
  rewrite (cm_magic_slice content Hmagic).
  rewrite bool_decide_eq_false_2 by (intros Hne; by apply Hne).
  rewrite lookup_take_lt by lia.
  by rewrite lookup_ge_None_2 by lia.
Qed.

Lemma read_cm_metadata_short_header_witness :
  read_cm_metadata [0x43; 0x4D; 3] = Raise IndexError.
Proof.
  apply (read_cm_metadata_short_header [0x43; 0x4D; 3]); [reflexivity|].
  simpl. lia.
Defined.

(** X12. A file that begins with 'CM', has the version byte 1 and its
    own length in the size field, but fewer than 0x14 bytes, makes
    [read_cm_metadata] raise [struct.error] when the data offset is
    unpacked. *)
Theorem read_cm_metadata_short_fields (content : bytes) :
  take 2 content = cm_magic →
  content !! 14%nat = Some 1 →
  le_value (slice content 2 6) = Z.of_nat (length content) →
  (length content < 0x14)%nat →
  read_cm_metadata content = Raise StructError.
Proof.
  intros Hmagic Hversion Hsize Hlen. unfold read_cm_metadata.
  rewrite (cm_magic_slice content Hmagic).
  rewrite bool_decide_eq_false_2 by (intros Hne; by apply Hne).
  rewrite lookup_take_lt, Hversion by lia.
  rewrite bool_decide_eq_false_2 by (intros Hne; by apply Hne).
  assert (15 ≤ length content)%nat
    by (apply lookup_lt_Some in Hversion; lia).
  rewrite take_ge by lia.
  assert (∀ lo hi n, (lo ≤ hi)%nat → (hi ≤ length content)%nat →
            (hi - lo = n)%nat →
            unpack_uint n (slice content lo hi)
            = Return (le_value (slice content lo hi))) as Hunpack.
  { intros lo hi n Hlo Hhi Hn. unfold unpack_uint.
    by rewrite bool_decide_eq_true_2 by (rewrite slice_length; lia). }
  rewrite !Hunpack by lia. cbn [bind]. rewrite Hsize.
  rewrite bool_decide_eq_false_2 by (intros Hne; by apply Hne).
  destruct (lookup_lt_is_Some_2 content 12) as [b12 ->]; [lia|].
  destruct (lookup_lt_is_Some_2 content 13) as [b13 ->]; [lia|].
  unfold unpack_uint at 1.
  rewrite bool_decide_eq_false_2; [done|].
  unfold slice. rewrite length_take, length_drop. lia.
Qed.

Lemma read_cm_metadata_short_fields_witness :
  read_cm_metadata
    [0x43; 0x4D; 16; 0; 0; 0; 2; 0; 1; 0; 0; 0; 24; 1; 1; 0]
  = Raise StructError.
Proof.
  apply (read_cm_metadata_short_fields
           [0x43; 0x4D; 16; 0; 0; 0; 2; 0; 1; 0; 0; 0; 24; 1; 1; 0]);
    [reflexivity..|simpl; lia].
Defined.

Lemma slice_take_le (l : bytes) (n a b : nat) :
  (b ≤ n)%nat → slice (take n l) a b = slice l a b.
Proof.
  intros Hb. unfold slice.
  destruct (decide (a ≤ b)%nat) as [Hab|Hab].
  - replace n with (a + (n - a))%nat at 1 by lia.
    rewrite <- take_drop_commute, take_take. f_equal. lia.
  - by replace (b - a)%nat with 0%nat by lia.
Qed.

Lemma slice_slice (l : bytes) (lo hi a b : nat) :
  (lo ≤ a)%nat → (b ≤ hi)%nat →
  slice (slice l lo hi) (a - lo) (b - lo) = slice l a b.
Proof.
  intros Hlo Hhi. unfold slice at 2. rewrite slice_take_le by lia.
  unfold slice. rewrite drop_drop. f_equal; [lia|]. f_equal. lia.
Qed.

(** X13. [read_cm_metadata] looks at the first 15 bytes of the file, at
    bytes 0x10 to 0x17 and at the length of the file, and at nothing
    else: two files of the same length that agree there are read alike,
    whatever byte 0x0F, bytes 0x18 to 0x1F and the payload hold. *)
Theorem read_cm_metadata_unread_bytes (content content' : bytes) :
  length content = length content' →
  take 15 content = take 15 content' →
  slice content 0x10 0x18 = slice content' 0x10 0x18 →
  read_cm_metadata content = read_cm_metadata content'.
Proof.
  intros Hlen Hhead Hfields. unfold read_cm_metadata. rewrite Hlen.
  assert (∀ a b, (b ≤ 15)%nat →
            slice (take 32 content) a b = slice (take 32 content') a b)
    as Hlow.
  { intros a b Hb. rewrite !slice_take_le by lia.
    rewrite <- (slice_take_le content 15), <- (slice_take_le content' 15)
      by lia.
    by rewrite Hhead. }
  assert (∀ a b, (16 ≤ a)%nat → (b ≤ 24)%nat →
            slice (take 32 content) a b = slice (take 32 content') a b)
    as Hhigh.
  { intros a b Ha Hb. rewrite !slice_take_le by lia.
    rewrite <- (slice_slice content 16 24), <- (slice_slice content' 16 24)
      by lia.
    by rewrite Hfields. }
  assert (∀ i, (i < 15)%nat → take 32 content !! i = take 32 content' !! i)
    as Hbyte.
  { intros i Hi. rewrite !lookup_take_lt by lia.
    rewrite <- (lookup_take_lt content 15), <- (lookup_take_lt content' 15)
      by lia.
    by rewrite Hhead. }
  rewrite (Hlow 0 2)%nat, (Hlow 2 6)%nat, (Hlow 6 8)%nat, (Hlow 8 10)%nat,
    (Hlow 10 12)%nat by lia.
  rewrite (Hhigh 16 20)%nat, (Hhigh 20 24)%nat by lia.
  by rewrite (Hbyte 14%nat), (Hbyte 12%nat), (Hbyte 13%nat) by lia.
Qed.

Lemma read_cm_metadata_unread_bytes_witness :
  read_cm_metadata (cm_header sample_metadata ++ [0x82; 1; 2; 3])
  = read_cm_metadata (<[15%nat := 0xFF]> (cm_header sample_metadata)
                      ++ [0; 0; 0; 0]).
Proof.
  apply (read_cm_metadata_unread_bytes
           (cm_header sample_metadata ++ [0x82; 1; 2; 3])
           (<[15%nat := 0xFF]> (cm_header sample_metadata) ++ [0; 0; 0; 0]));
    reflexivity.
Defined.

(** * Further properties of the archive tools *)

Lemma unpack_uint_short n (b : bytes) :
  length b ≠ n → unpack_uint n b = Raise StructError.
Proof. intros Hlen. unfold unpack_uint. by rewrite bool_decide_eq_false_2. Qed.

Lemma unpack_uint_exact n (b : bytes) :
  length b = n → unpack_uint n b = Return (le_value b).
Proof. intros Hlen. unfold unpack_uint. by rewrite bool_decide_eq_true_2. Qed.

Lemma read_at_length f offset n :
  (offset + n ≤ length (file_content f))%nat → length (read_at f offset n) = n.
Proof. intros Hin. unfold read_at. rewrite slice_length; lia. Qed.

Lemma read_at_short f offset n :
  (1 ≤ n)%nat → (length (file_content f) < offset + n)%nat →
  length (read_at f offset n) ≠ n.
Proof.
  intros Hn Hout. unfold read_at, slice. rewrite length_take, length_drop. lia.
Qed.

(** X14. A file of fewer than 8 bytes makes [try_open] raise
    [struct.error] at its first read; it is not reported as an invalid
    archive. *)
Theorem try_open_short_file (lower : str → str) (f : file) :
  (length (file_content f) < 8)%nat → try_open lower f = Raise StructError.
Proof.
  intros Hlen. unfold try_open, try_open_with, read_uint32.
  rewrite unpack_uint_short; [done|]. apply read_at_short; lia.
Qed.

Lemma try_open_short_file_witness :
  try_open lower_fragment
    {| file_path := str_of "empty.arc"; file_content := [] |}
  = Raise StructError.
Proof.
  apply (try_open_short_file lower_fragment
           {| file_path := str_of "empty.arc"; file_content := [] |}).
  simpl. lia.
Defined.

(** X15. [try_open] returns [None] for every file of at least 12 bytes
    whose stored total size differs from its length, and for every such
    file whose size is right but whose entry count, read as a signed
    32-bit number, is not between 1 and 0xFFFFF. *)
Theorem try_open_rejects (lower : str → str) (f : file) :
  (12 ≤ length (file_content f))%nat →
  le_value (read_at f 4 4) ≠ getsize f
  ∨ (∃ count, read_int32 f 8 = Return count ∧ (count ≤ 0 ∨ 0xfffff < count)) →
  try_open lower f = Return None.
Proof.
  intros Hlen Hbad. unfold try_open, try_open_with, read_uint32.
  rewrite unpack_uint_exact by (apply read_at_length; lia). cbn [bind].
  case_bool_decide as Hsize; [done|].
  destruct Hbad as [Hbad|(count & -> & Hcount)]; [done|].
  cbn [bind]. by rewrite bool_decide_eq_true_2 by lia.
Qed.

Lemma try_open_rejects_witness :
  try_open lower_fragment
    {| file_path := str_of "data.arc";
       file_content := le_bytes 4 signature ++ le_bytes 4 16
                       ++ le_bytes 4 0x80000001 ++ [0; 1; 0; 0] |}
  = Return None.
Proof.
  apply (try_open_rejects lower_fragment
           {| file_path := str_of "data.arc";
              file_content := le_bytes 4 signature ++ le_bytes 4 16
                              ++ le_bytes 4 0x80000001 ++ [0; 1; 0; 0] |}).
  - simpl. lia.
  - right. exists (0x80000001 - 2 ^ 32). split; [reflexivity|lia].
Defined.

Section index_records.
Variable detect : file → Z → outcome str.
Variable f : file.
Variable mask : bool.
Variable folders : option (list folder).
Variable count : Z.

(** A property of the current folder that the folder cursor keeps. *)
Variable Q : str → Prop.
Hypothesis Q_advance : ∀ fuel i cur fo nf cur' fo' nf',
  Q cur →
  advance_folder fuel folders count i cur fo nf = Return (cur', fo', nf') →
  Q cur'.

(** Entry [k] of a resolved index is read from record [k] of the index
    region: its offset and size are the record's two u32 fields, its name
    joins a folder to the record's name, which is not empty, and its type
    is what the detector, or the override, answered. *)
Lemma entries_loop_records n :
  ∀ i index_offset cur fo nf dir result,
    Q cur →
    entries_loop detect f mask folders count n i index_offset cur fo nf dir
      = Return (Some result) →
    ∃ es, result = dir ++ es
      ∧ length es = n
      ∧ ∀ k e, es !! k = Some e →
          ∃ folder raw,
            Q folder
            ∧ read_string f (index_offset + k * 0x18) 0x10 = Return raw
            ∧ raw ≠ []
            ∧ entry_name e = path_join folder raw
            ∧ read_uint32 f (index_offset + k * 0x18 + 0x10)
              = Return (entry_offset e)
            ∧ read_uint32 f (index_offset + k * 0x18 + 0x14)
              = Return (entry_size e)
            ∧ (if negb mask then detect f (entry_offset e)
               else Return mask_type) = Return (entry_type e)
            ∧ entry_offset e + entry_size e ≤ getsize f.
Proof.
  induction n as [|n IH]; intros i index_offset cur fo nf dir result HQ H.
  - cbn [entries_loop] in H. exists []. rewrite app_nil_r.
    split; [congruence|]. split; [done|]. intros k e Hk. done.
  - apply entries_loop_S_inv in H
      as (cur' & fo' & nf' & name & offset & size & type
          & Hadv & Hname & Hne & Hoff & Hsize & Htype & Hplace & H).
    pose proof (Q_advance _ _ _ _ _ _ _ _ HQ Hadv) as HQ'.
    apply IH in H as (es & -> & Hlen & Hes); [|done].
    eexists (_ :: es). split; [by rewrite <- (assoc (++))|].
    split; [simpl; lia|]. intros k e Hk. destruct k as [|k].
    + simpl in Hk. simplify_eq. exists cur', name.
      rewrite Nat.mul_0_l, Nat.add_0_r. by repeat split.
    + simpl in Hk. destruct (Hes k e Hk) as (folder & raw & Hfolder & Hraw & Hrest).
      exists folder, raw.
      replace (index_offset + S k * 24)%nat
        with (index_offset + 24 + k * 24)%nat by lia.
      by split.
Qed.
End index_records.

Lemma advance_folder_None fuel count i cur fo nf cur' fo' nf' :
  advance_folder fuel None count i cur fo nf = Return (cur', fo', nf') →
  cur' = cur.
Proof.
  intros H. destruct fuel; cbn [advance_folder] in H;
    case_bool_decide; by simplify_eq.
Qed.

Lemma advance_folder_Some fs count :
  ∀ fuel i cur fo nf cur' fo' nf',
    cur = [] ∨ cur ∈ folder_name <$> fs →
    advance_folder fuel (Some fs) count i cur fo nf = Return (cur', fo', nf') →
    cur' = [] ∨ cur' ∈ folder_name <$> fs.
Proof.
  induction fuel as [|fuel IH]; intros i cur fo nf cur' fo' nf' Hcur H;
    cbn [advance_folder] in H.
  - repeat case_bool_decide; by simplify_eq.
  - case_bool_decide; [|by simplify_eq].
    case_bool_decide; [|by simplify_eq].
    destruct (fs !! fo) as [folder|] eqn:Hfolder; [|done].
    bind_inv H as next Hnext. eapply IH; [|exact H].
    right. apply list_elem_of_fmap_2, list_elem_of_lookup. eauto.
Qed.

(** X16. A resolved index holds exactly [entryCount] entries, and entry
    [k] is record [k] of the index region: its offset and size are the
    two u32 fields of the record and lie inside the file, and its name is
    [os.path.join] of a folder and the record's name, which is not empty;
    the folder is the empty string or a name of the directory table
    that the file holds behind the index when it has directory entries
    and directory level 2 (there is no table otherwise). *)
Theorem try_open_index (lower : str → str) (detect : file → Z → outcome str)
    (f : file) (arc : archive) :
  try_open_with lower detect f = Return (Some arc) →
  ∃ (count dir_level dir_entries : Z) (folders : list folder),
    read_int32 f 8 = Return count
    ∧ read_byte f 0x0d = Return dir_level
    ∧ read_uint16 f 0x0e = Return dir_entries
    ∧ (if bool_decide (dir_entries ≠ 0) && bool_decide (dir_level = 2)
       then read_folders f (Z.to_nat dir_entries)
              (0x10 + Z.to_nat count * 0x18) [] = Return folders
       else folders = [])
    ∧ length (arc_entries arc) = Z.to_nat count
    ∧ ∀ k e, arc_entries arc !! k = Some e →
        ∃ folder raw,
          (folder = [] ∨ folder ∈ folder_name <$> folders)
          ∧ read_string f (0x10 + k * 0x18) 0x10 = Return raw
          ∧ raw ≠ []
          ∧ entry_name e = path_join folder raw
          ∧ read_uint32 f (0x10 + k * 0x18 + 0x10) = Return (entry_offset e)
          ∧ read_uint32 f (0x10 + k * 0x18 + 0x14) = Return (entry_size e)
          ∧ entry_offset e + entry_size e ≤ getsize f.
Proof.
  intros H. apply try_open_with_inv in H
    as (count & dir_level & dir_entries & folders & next_folder
        & _ & Hcount & _ & Hlevel & Hentries & _ & Hfolders & _ & H).
  exists count, dir_level, dir_entries, (default [] folders).
  split; [done|]. split; [done|]. split; [done|]. split.
  { destruct (bool_decide (dir_entries ≠ 0) && bool_decide (dir_level = 2)).
    - bind_inv Hfolders as fs Hfs. by simplify_eq.
    - by simplify_eq. }
  apply (entries_loop_records detect f _ folders count
           (λ cur, cur = [] ∨ cur ∈ folder_name <$> default [] folders)) in H
    as (es & Hes & Hlen & Hrecords).
  - rewrite app_nil_l in Hes. rewrite Hes. split; [done|].
    intros k e Hk.
    destruct (Hrecords k e Hk)
      as (folder & raw & ? & ? & ? & ? & ? & ? & _ & ?).
    exists folder, raw. by repeat split.
  - intros fuel i cur fo nf cur' fo' nf' Hcur Hadv.
    destruct folders as [fs|]; simpl in *.
    + by eapply advance_folder_Some.
    + left. apply advance_folder_None in Hadv as ->.
      destruct Hcur as [?|Hin]; [done|]. by apply elem_of_nil in Hin.
  - by left.
Qed.

Lemma try_open_index_witness :
  ∃ (arc : archive) (folders : list folder),
    try_open lower_fragment two_folder_archive = Return (Some arc)
    ∧ read_int32 two_folder_archive 8 = Return 5
    ∧ read_byte two_folder_archive 0x0d = Return 2
    ∧ read_uint16 two_folder_archive 0x0e = Return 2
    ∧ read_folders two_folder_archive 2 (0x10 + 5 * 0x18) [] = Return folders
    ∧ folder_name <$> folders = [str_of "AA"; str_of "BB"]
    ∧ length (arc_entries arc) = 5%nat
    ∧ ∀ k e, arc_entries arc !! k = Some e →
        ∃ folder raw,
          (folder = [] ∨ folder ∈ folder_name <$> folders)
          ∧ read_string two_folder_archive (0x10 + k * 0x18) 0x10 = Return raw
          ∧ raw ≠ []
          ∧ entry_name e = path_join folder raw
          ∧ read_uint32 two_folder_archive (0x10 + k * 0x18 + 0x10)
            = Return (entry_offset e)
          ∧ read_uint32 two_folder_archive (0x10 + k * 0x18 + 0x14)
            = Return (entry_size e)
          ∧ entry_offset e + entry_size e ≤ getsize two_folder_archive.
Proof.
  eexists.
  destruct (try_open_index lower_fragment detect_file_type two_folder_archive
              _ eq_refl)
    as (count & dir_level & dir_entries & folders
        & Hcount & Hlevel & Hentries & Hfolders & Hlen & Hrecords).
  vm_compute in Hcount. injection Hcount as <-.
  vm_compute in Hlevel. injection Hlevel as <-.
  vm_compute in Hentries. injection Hentries as <-.
  exists folders. split; [reflexivity|].
  do 3 (split; [reflexivity|]).
  change (bool_decide (2 ≠ 0) && bool_decide (2 = 2)) with true in Hfolders.
  cbv iota in Hfolders. split; [exact Hfolders|]. split.
  { vm_compute in Hfolders. injection Hfolders as <-. reflexivity. }
  split; [exact Hlen|exact Hrecords].
Defined.

(** X17. In an archive without a directory table in use (no directory
    entries, or a directory level other than 2) every resolved entry is
    named exactly as its record: no folder is prefixed. *)
Theorem try_open_flat_names (lower : str → str)
    (detect : file → Z → outcome str) (f : file) (arc : archive) :
  try_open_with lower detect f = Return (Some arc) →
  read_uint16 f 0x0e = Return 0
  ∨ (∃ level, read_byte f 0x0d = Return level ∧ level ≠ 2) →
  ∀ k e, arc_entries arc !! k = Some e →
    read_string f (0x10 + k * 0x18) 0x10 = Return (entry_name e).
Proof.
  intros H Hflat. apply try_open_with_inv in H
    as (count & dir_level & dir_entries & folders & next_folder
        & _ & _ & _ & Hlevel & Hentries & _ & Hfolders & _ & H).
  assert (folders = None) as ->.
  { destruct Hflat as [Hzero|(level & Hlevel' & Hne)].
    - rewrite Hzero in Hentries. simplify_eq.
      rewrite (bool_decide_eq_false_2 (0 ≠ 0)) in Hfolders
        by (intros Hne; by apply Hne).
      cbn [andb] in Hfolders. congruence.
    - rewrite Hlevel' in Hlevel. simplify_eq.
      rewrite (bool_decide_eq_false_2 (dir_level = 2)) in Hfolders by done.
      rewrite andb_false_r in Hfolders. congruence. }
  apply (entries_loop_records detect f _ None count (λ cur, cur = [])) in H
    as (es & Hes & _ & Hrecords).
  - rewrite app_nil_l in Hes. rewrite Hes. intros k e Hk.
    destruct (Hrecords k e Hk) as (folder & raw & -> & Hraw & Hne & Hname & _).
    by rewrite Hname, path_join_empty.
  - intros fuel i cur fo nf cur' fo' nf' -> Hadv.
    by apply advance_folder_None in Hadv.
  - done.
Qed.

Lemma try_open_flat_names_witness :
  ∃ content arc,
    pack_files cp932_fragment sample_listing = Return content
    ∧ try_open lower_fragment
        {| file_path := str_of "data.arc"; file_content := content |}
      = Return (Some arc)
    ∧ ∀ k e, arc_entries arc !! k = Some e →
        read_string {| file_path := str_of "data.arc"; file_content := content |}
          (0x10 + k * 0x18) 0x10 = Return (entry_name e).
Proof.
  eexists. eexists. split; [vm_compute; reflexivity|].
  split; [vm_compute; reflexivity|].
  eapply (try_open_flat_names lower_fragment detect_file_type);
    [vm_compute; reflexivity | left; vm_compute; reflexivity].
Defined.

Lemma le_value_2_bytes (b0 b1 hi : Z) :
  0 ≤ b0 < 256 → 0 ≤ b1 < 256 →
  Z.land (b0 + 256 * (b1 + 256 * hi)) 0xFFFF = b0 + 256 * b1.
Proof.
  intros Hb0 Hb1. change 0xFFFF with (Z.ones 16).
  rewrite Z.land_ones by lia. symmetry.
  apply (Zmod_unique _ _ hi); lia.
Qed.

(** X18. [detect_file_type] decides on the first two bytes at the offset
    alone: 'CM', 'AM', 'BM' and the bytes B4 10 give ".cm", ".am", ".bmp"
    and ".msk", anything else ".bin", whatever the third and fourth bytes
    are. *)
Theorem detect_file_type_signature (f : file) (offset b0 b1 b2 b3 : Z) :
  read_at f (Z.to_nat offset) 4 = [b0; b1; b2; b3] →
  0 ≤ b0 < 256 → 0 ≤ b1 < 256 →
  detect_file_type f offset = Return (type_of_signature b0 b1).
Proof.
  intros Hread Hb0 Hb1. unfold detect_file_type, read_uint32.
  rewrite Hread. unfold unpack_uint.
  rewrite bool_decide_eq_true_2 by done. cbn [bind le_value].
  rewrite le_value_2_bytes by done. unfold type_of_signature.
  repeat case_bool_decide; try done; lia.
Qed.

Lemma detect_file_type_signature_witness :
  detect_file_type two_folder_archive 160 = Return (type_of_signature 0x42 0x4D).
Proof.
  apply (detect_file_type_signature two_folder_archive 160 0x42 0x4D 0 0);
    [reflexivity|lia|lia].
Defined.

Lemma detect_file_type_known f offset type :
  detect_file_type f offset = Return type → type ∈ known_types.
Proof.
  unfold detect_file_type. intros H. bind_inv H as sig Hsig.
  unfold known_types.
  repeat case_bool_decide; simplify_eq;
    rewrite !elem_of_cons; auto 10.
Qed.

(** X19. In an archive whose lower-cased basename is not "mask.arc",
    for the case mapping [lower] of the interpreter, whatever it is,
    every resolved entry has one of the five extensions of
    [detect_file_type] as its type. *)
Theorem try_open_types (lower : str → str) (f : file) (arc : archive) :
  is_mask_arc lower (file_path f) = false →
  try_open lower f = Return (Some arc) →
  Forall (λ e, entry_type e ∈ known_types) (arc_entries arc).
Proof.
  intros Hmask H. unfold try_open in H. apply try_open_with_inv in H
    as (count & dir_level & dir_entries & folders & next_folder
        & _ & _ & _ & _ & _ & _ & _ & _ & H).
  rewrite Hmask in H.
  apply (entries_loop_records detect_file_type f _ folders count (λ _, True))
    in H as (es & Hes & _ & Hrecords); [|done..].
  rewrite app_nil_l in Hes. rewrite Hes. apply Forall_lookup. intros k e Hk.
  destruct (Hrecords k e Hk) as (folder & raw & _ & _ & _ & _ & _ & _ & Htype & _).
  by apply detect_file_type_known in Htype.
Qed.

Lemma try_open_types_witness :
  ∃ arc, is_mask_arc lower_fragment (file_path two_folder_archive) = false
    ∧ try_open lower_fragment two_folder_archive = Return (Some arc)
    ∧ entry_type <$> arc_entries arc
      = [str_of ".cm"; str_of ".am"; str_of ".bmp"; str_of ".msk";
         str_of ".bin"]
    ∧ Forall (λ e, entry_type e ∈ known_types) (arc_entries arc).
Proof.
  eexists. split; [reflexivity|]. split; [reflexivity|].
  split; [reflexivity|].
  apply (try_open_types lower_fragment two_folder_archive _ eq_refl eq_refl).
Defined.

Lemma le_value_nonneg (b : bytes) : is_bytes b → 0 ≤ le_value b.
Proof. induction 1 as [|x b Hx _ IH]; simpl; lia. Qed.

Lemma slice_is_bytes (b : bytes) lo hi : is_bytes b → is_bytes (slice b lo hi).
Proof. intros Hb. unfold slice. by apply Forall_take, Forall_drop. Qed.

Lemma read_uint32_nonneg f offset v :
  is_bytes (file_content f) → read_uint32 f offset = Return v → 0 ≤ v.
Proof.
  intros Hf. unfold read_uint32, unpack_uint. case_bool_decide; [|done].
  intros [= <-]. by apply le_value_nonneg, slice_is_bytes.
Qed.

(** X20. For every entry of a resolved archive, offset and size are not
    negative and the read of [extract_files]
    ([f.seek(entry['offset']); f.read(entry['size'])] on the archive
    file) returns exactly [entry['size']] bytes: the data of no entry is
    cut short by the end of the archive. *)
Theorem extract_read_sizes (lower : str → str) (f : file) (arc : archive) :
  is_bytes (file_content f) →
  try_open lower f = Return (Some arc) →
  Forall (λ e,
            0 ≤ entry_offset e ∧ 0 ≤ entry_size e
            ∧ Z.of_nat (length (read_at f (Z.to_nat (entry_offset e))
                                  (Z.to_nat (entry_size e))))
              = entry_size e)
    (arc_entries arc).
Proof.
  intros Hbytes H. apply Forall_lookup. intros k e Hk.
  unfold try_open in H. apply try_open_with_inv in H
    as (count & dir_level & dir_entries & folders & next_folder
        & _ & _ & _ & _ & _ & _ & _ & _ & H).
  apply (entries_loop_records detect_file_type f _ folders count (λ _, True))
    in H as (es & Hes & _ & Hrecords); [|done..].
  rewrite app_nil_l in Hes. rewrite Hes in Hk.
  destruct (Hrecords k e Hk)
    as (folder & raw & _ & _ & _ & _ & Hoff & Hsize & _ & Hplace).
  apply read_uint32_nonneg in Hoff, Hsize; [|done..].
  unfold getsize in Hplace. split; [done|]. split; [done|].
  rewrite read_at_length; lia.
Qed.

Lemma extract_read_sizes_witness :
  ∃ arc, try_open lower_fragment two_folder_archive = Return (Some arc)
    ∧ Forall (λ e,
                0 ≤ entry_offset e ∧ 0 ≤ entry_size e
                ∧ Z.of_nat (length (read_at two_folder_archive
                                      (Z.to_nat (entry_offset e))
                                      (Z.to_nat (entry_size e))))
                  = entry_size e)
        (arc_entries arc).
Proof.
  eexists. split; [vm_compute; reflexivity|].
  eapply (extract_read_sizes lower_fragment two_folder_archive).
  - apply (bool_decide_unpack _). by vm_compute.
  - vm_compute; reflexivity.
Defined.

(** ** [pack_files]: when it fails, and what it writes *)

Section packer_errors.
Variable cp932 : Z → option bytes.

Lemma encode_cp932_returns s :
  (∃ b, encode_cp932 cp932 s = Return b) ↔ Forall (λ c, is_Some (cp932 c)) s.
Proof.
  induction s as [|c s IH]; cbn [encode_cp932].
  - split; [constructor|by eexists].
  - rewrite Forall_cons, <- IH. destruct (cp932 c) as [b|].
    + split.
      * intros [out H]. split; [done|].
        destruct (encode_cp932 cp932 s); [by eexists|done..].
      * intros [_ [rest ->]]. by eexists.
    + split; [by intros [??]|]. intros [[??] _]. done.
Qed.

Lemma write_index_returns placed total :
  Z.of_nat total < 2 ^ 32 →
  Forall (λ '(name, data, offset), (offset + length data ≤ total)%nat) placed →
  (∃ index, write_index cp932 placed = Return index)
  ↔ Forall (λ '(name, _, _), ∃ field, name_field cp932 name = Return field) placed.
Proof.
  intros Htotal. induction 1 as [|[[name data] offset] placed Hin _ IH].
  - split; [constructor|by eexists].
  - rewrite Forall_cons, <- IH. cbn [write_index].
    destruct (unpack_pack 4 (Z.of_nat offset)) as [-> _]; [lia|].
    destruct (unpack_pack 4 (Z.of_nat (length data))) as [-> _]; [lia|].
    destruct (name_field cp932 name) as [field| |]; cbn [bind].
    + destruct (write_index cp932 placed) as [rest| |]; cbn [bind].
      * split; [|by eexists]. intros _. split; by eexists.
      * split; [by intros [??]|]. by intros [_ [??]].
      * split; [by intros [??]|]. by intros [_ [??]].
    + split; [by intros [??]|]. by intros [[??] _].
    + split; [by intros [??]|]. by intros [[??] _].
Qed.

(** X21. [pack_files] writes an archive exactly when the archive stays
    below 2^32 bytes (counted with 0x18 bytes per index record) and every
    character of every recorded name, padded with NUL to 16 characters,
    has an encoding in cp932; otherwise [struct.pack] or [str.encode]
    raises. *)
Theorem pack_files_returns (listing : list (str * bytes)) :
  (∃ content, pack_files cp932 listing = Return content)
  ↔ Z.of_nat (archive_size listing) < 2 ^ 32
    ∧ Forall (λ item, Forall (λ c, is_Some (cp932 c))
                        (ljust16 (packed_name item.1))) listing.
Proof.
  unfold pack_files, archive_size.
  set (record := λ '(relpath, data), (packed_name relpath, data)).
  set (entries := record <$> listing).
  assert (length entries = length listing) as Hlen by apply length_fmap.
  assert (snd <$> entries = snd <$> listing) as Hdatas.
  { unfold entries. rewrite <- list_fmap_compose.
    apply list_fmap_ext. by intros ? [??]. }
  rewrite Hlen.
  destruct (assign_offsets entries (16 + length listing * 24))
    as [placed total] eqn:Hassign.
  destruct (assign_offsets_shape _ _ _ _ Hassign) as [Hfst Htotal].
  rewrite Hdatas in Htotal. rewrite <- Htotal.
  assert (Forall (λ '(name, data, offset), (offset + length data ≤ total)%nat)
            placed) as Hin.
  { eapply Forall_impl;
      [apply (assign_offsets_slices _ _ _ _
                (replicate (16 + length listing * 24) 0) [] Hassign);
       by rewrite length_replicate|].
    by intros [[??]?] (? & _). }
  assert (Forall (λ '(name, _, _), ∃ field, name_field cp932 name = Return field)
            placed
          ↔ Forall (λ item, Forall (λ c, is_Some (cp932 c))
                              (ljust16 (packed_name item.1))) listing) as Hnames.
  { transitivity (Forall (λ e : str * bytes,
                            ∃ field, name_field cp932 e.1 = Return field)
                    entries).
    - rewrite <- Hfst, Forall_fmap. apply Forall_iff. by intros [[??]?].
    - unfold entries. rewrite Forall_fmap. apply Forall_iff.
      intros [relpath data]. cbn. apply encode_cp932_returns. }
  rewrite <- Hnames.
  destruct (unpack_pack 4 signature) as [-> _]; [done|]. cbn [bind].
  unfold pack_uint at 1. case_bool_decide as Hfits; cbn [bind].
  - destruct (unpack_pack 4 (Z.of_nat (length listing))) as [-> _]; [lia|].
    cbn [bind]. rewrite <- (write_index_returns placed total) by (done || lia).
    destruct (write_index cp932 placed) as [index| |]; cbn [bind].
    + split; [|by eexists]. intros _. split; [lia|by eexists].
    + split; [by intros [??]|]. by intros [_ [??]].
    + split; [by intros [??]|]. by intros [_ [??]].
  - split; [by intros [??]|]. intros [? _]. lia.
Qed.

(** X22. The name of an index record is padded to 16 characters before
    it is encoded, so a name with a character of two or more bytes is
    written as more than 16 bytes, however few characters it has. *)
Theorem name_field_double_byte (name : str) (field : bytes) :
  (∀ c b, cp932 c = Some b → (1 ≤ length b)%nat) →
  name_field cp932 name = Return field →
  Exists (λ c, ∃ b, cp932 c = Some b ∧ (2 ≤ length b)%nat) name →
  (16 < length field)%nat.
Proof.
  intros Hcodec Hfield Hwide.
  assert (∀ s b, encode_cp932 cp932 s = Return b → (length s ≤ length b)%nat)
    as Hlower.
  { induction s as [|c s IH]; intros b H; cbn [encode_cp932] in H.
    - simplify_eq. done.
    - destruct (cp932 c) as [bc|] eqn:Hc; [|done]. bind_inv H as rest Hrest.
      simplify_eq. apply Hcodec in Hc. apply IH in Hrest.
      rewrite length_app. simpl. lia. }
  assert (∀ s b, encode_cp932 cp932 s = Return b →
            Exists (λ c, ∃ b, cp932 c = Some b ∧ (2 ≤ length b)%nat) s →
            (length s < length b)%nat) as Hstrict.
  { induction s as [|c s IH]; intros b H Hex; cbn [encode_cp932] in H.
    - by apply Exists_nil in Hex.
    - destruct (cp932 c) as [bc|] eqn:Hc; [|done]. bind_inv H as rest Hrest.
      simplify_eq. rewrite length_app. simpl.
      apply Exists_cons in Hex as [(b' & Hb' & Hlen)|Hex].
      + simplify_eq. apply Hlower in Hrest. lia.
      + apply Hcodec in Hc. apply IH in Hrest; [lia|done]. }
  unfold name_field in Hfield. apply Hstrict in Hfield.
  - unfold ljust16 in Hfield. rewrite length_app, length_replicate in Hfield.
    lia.
  - unfold ljust16. apply Exists_app. by left.
Qed.
End packer_errors.

Lemma name_field_double_byte_witness :
  name_field cp932_fragment [0x3042] = Return ([0x82; 0xA0] ++ replicate 15 0)
  ∧ (16 < length ([0x82; 0xA0] ++ replicate 15 0))%nat.
Proof.
  split; [reflexivity|].
  apply (name_field_double_byte cp932_fragment [0x3042]
           ([0x82; 0xA0] ++ replicate 15 0)).
  - intros c b. unfold cp932_fragment.
    repeat case_bool_decide; intros [= <-]; simpl; lia.
  - reflexivity.
  - apply Exists_cons_hd. exists [0x82; 0xA0]. split; [reflexivity|simpl; lia].
Defined.

(** X23. What [pack_files] writes: the 16-byte header with the
    signature, the size 0x10 + 0x18 * N + payload bytes, the count N and
    the bytes 00 01 00 00, then the index, then the payloads in the order
    of the listing. The recorded size is the size of the file exactly
    when the index takes 0x18 bytes per record. *)
Theorem pack_files_layout (cp932 : Z → option bytes)
    (listing : list (str * bytes)) (content : bytes) :
  pack_files cp932 listing = Return content →
  ∃ index,
    content = le_bytes 4 signature
              ++ le_bytes 4 (Z.of_nat (archive_size listing))
              ++ le_bytes 4 (Z.of_nat (length listing))
              ++ [0; 1; 0; 0] ++ index ++ mjoin (snd <$> listing)
    ∧ Z.of_nat (archive_size listing) < 2 ^ 32
    ∧ (length content = archive_size listing
       ↔ length index = (length listing * 0x18)%nat).
Proof.
  unfold pack_files, archive_size.
  set (record := λ '(relpath, data), (packed_name relpath, data)).
  set (entries := record <$> listing).
  assert (length entries = length listing) as Hlen by apply length_fmap.
  assert (snd <$> entries = snd <$> listing) as Hdatas.
  { unfold entries. rewrite <- list_fmap_compose.
    apply list_fmap_ext. by intros ? [??]. }
  rewrite Hlen.
  destruct (assign_offsets entries (16 + length listing * 24))
    as [placed total] eqn:Hassign.
  destruct (assign_offsets_shape _ _ _ _ Hassign) as [Hfst Htotal].
  rewrite Hdatas in Htotal. rewrite <- Htotal.
  intros H. bind_inv H as packed_signature Hsignature.
  bind_inv H as packed_total Htotal'. bind_inv H as packed_count Hcount.
  bind_inv H as index Hindex. simplify_eq. exists index.
  unfold pack_uint in Hsignature, Htotal', Hcount.
  repeat case_bool_decide; simplify_eq.
  assert ((λ '(_, data, _), data) <$> placed = snd <$> listing) as ->.
  { rewrite <- Hdatas, <- Hfst, <- list_fmap_compose.
    apply list_fmap_ext. by intros ? [[??]?]. }
  split; [done|]. split; [lia|].
  rewrite !length_app. simpl length. rewrite length_app. lia.
Qed.

Lemma pack_files_layout_witness :
  ∃ content index,
    pack_files cp932_fragment sample_listing = Return content
    ∧ content = le_bytes 4 signature
                ++ le_bytes 4 (Z.of_nat (archive_size sample_listing))
                ++ le_bytes 4 (Z.of_nat (length sample_listing))
                ++ [0; 1; 0; 0] ++ index ++ mjoin (snd <$> sample_listing)
    ∧ Z.of_nat (archive_size sample_listing) < 2 ^ 32
    ∧ (length content = archive_size sample_listing
       ↔ length index = (length sample_listing * 0x18)%nat).
Proof.
  eexists.
  destruct (pack_files_layout cp932_fragment sample_listing _ eq_refl)
    as (index & H).
  exists index. split; [reflexivity|exact H].
Defined.

(** ** The recorded name: [os.path.splitext(relpath.replace("\\", "/"))[0]] *)

Lemma rfind_from_app c s t : ∀ i found,
  rfind_from c (s ++ t) i found
  = rfind_from c t (i + Z.of_nat (length s)) (rfind_from c s i found).
Proof.
  induction s as [|x s IH]; intros i found.
  - simpl. by rewrite Z.add_0_r.
  - cbn [app rfind_from length]. rewrite IH. f_equal. lia.
Qed.

Lemma rfind_from_notin c s : ∀ i found,
  c ∉ s → rfind_from c s i found = found.
Proof.
  induction s as [|x s IH]; intros i found Hc; [done|].
  apply not_elem_of_cons in Hc as [Hx Hc]. cbn [rfind_from].
  rewrite bool_decide_eq_false_2 by done. by apply IH.
Qed.

(** The result is the start value, or an index of [c]. *)
Lemma rfind_from_spec c s : ∀ i found,
  rfind_from c s i found = found
  ∨ ∃ k, rfind_from c s i found = i + Z.of_nat k ∧ s !! k = Some c.
Proof.
  induction s as [|x s IH]; intros i found; [by left|].
  cbn [rfind_from].
  destruct (IH (i + 1) (if bool_decide (x = c) then i else found))
    as [->|(k & -> & Hk)].
  - case_bool_decide as Hx; [|by left]. right. exists 0%nat. subst x.
    split; [lia|done].
  - right. exists (S k). split; [lia|done].
Qed.

Lemma rfind_sep (d : str) :
  d = [] ∨ last d = Some slash → rfind slash d + 1 = Z.of_nat (length d).
Proof.
  intros [->|Hlast]; [done|].
  apply last_Some in Hlast as [d' ->]. unfold rfind.
  rewrite rfind_from_app, length_app. cbn [rfind_from].
  rewrite bool_decide_eq_true_2 by done. simpl. lia.
Qed.

Lemma to_slashes_id (s : str) : backslash ∉ s → to_slashes s = s.
Proof.
  induction s as [|c s IH]; intros Hs; [done|].
  apply not_elem_of_cons in Hs as [Hc Hs]. unfold to_slashes in *.
  rewrite fmap_cons, IH by done.
  rewrite bool_decide_eq_false_2 by done. done.
Qed.

Lemma to_slashes_sep (d : str) :
  d = [] ∨ last d = Some slash ∨ last d = Some backslash →
  to_slashes d = [] ∨ last (to_slashes d) = Some slash.
Proof.
  intros [->|Hlast]; [by left|]. right. unfold to_slashes.
  rewrite fmap_last. destruct Hlast as [->| ->]; done.
Qed.

Lemma splitext_root_extension (d base ext : str) :
  d = [] ∨ last d = Some slash →
  slash ∉ base → Exists (λ c, c ≠ dot) base →
  dot ∉ ext → slash ∉ ext →
  splitext_root (d ++ base ++ [dot] ++ ext) = d ++ base.
Proof.
  intros Hd Hbase Hname Hext Hext'. unfold splitext_root.
  assert (rfind slash (d ++ base ++ [dot] ++ ext) = rfind slash d) as ->.
  { unfold rfind. rewrite rfind_from_app. apply rfind_from_notin.
    rewrite !not_elem_of_app, not_elem_of_cons. repeat split; try done.
    apply not_elem_of_nil. }
  assert (rfind dot (d ++ base ++ [dot] ++ ext)
          = Z.of_nat (length (d ++ base))) as ->.
  { unfold rfind. rewrite (assoc (++) d), rfind_from_app.
    cbn [app rfind_from]. rewrite bool_decide_eq_true_2 by done.
    rewrite rfind_from_notin by done. lia. }
  apply rfind_sep in Hd. rewrite Hd, !Nat2Z.id, length_app.
  rewrite slice_app_middle.
  rewrite bool_decide_eq_true_2 by lia.
  rewrite bool_decide_eq_true_2 by done. cbn [andb].
  rewrite (assoc (++)), <- length_app. apply take_app_length.
Qed.

(** X24. A relative path whose last component has an extension is
    recorded without it, with its backslashes turned into slashes: the
    part after the last dot is dropped when that dot lies in the last
    component and is preceded there by a character other than a dot. *)
Theorem packed_name_strips_extension (dir base ext : str) :
  dir = [] ∨ last dir = Some slash ∨ last dir = Some backslash →
  slash ∉ base → backslash ∉ base → Exists (λ c, c ≠ dot) base →
  dot ∉ ext → slash ∉ ext → backslash ∉ ext →
  packed_name (dir ++ base ++ [dot] ++ ext) = to_slashes dir ++ base.
Proof.
  intros Hdir Hbase Hbase' Hname Hext Hext' Hext''.
  change (packed_name ?p) with (splitext_root (to_slashes p)).
  unfold to_slashes at 1. rewrite !fmap_app. fold (to_slashes dir).
  fold (to_slashes base). fold (to_slashes ext). fold (to_slashes [dot]).
  rewrite (to_slashes_id base), (to_slashes_id ext) by done.
  apply splitext_root_extension; try done. by apply to_slashes_sep.
Qed.

Lemma packed_name_strips_extension_witness :
  packed_name (str_of "sub\" ++ str_of "b.x" ++ [dot] ++ str_of "bin")
  = to_slashes (str_of "sub\") ++ str_of "b.x".
Proof.
  apply (packed_name_strips_extension (str_of "sub\") (str_of "b.x")
           (str_of "bin")).
  - right. right. reflexivity.
  - apply (bool_decide_unpack _). by vm_compute.
  - apply (bool_decide_unpack _). by vm_compute.
  - apply Exists_cons_hd. by vm_compute.
  - apply (bool_decide_unpack _). by vm_compute.
  - apply (bool_decide_unpack _). by vm_compute.
  - apply (bool_decide_unpack _). by vm_compute.
Defined.

Lemma splitext_root_keeps (d dots rest : str) :
  d = [] ∨ last d = Some slash →
  Forall (λ c, c = dot) dots → dot ∉ rest → slash ∉ rest →
  splitext_root (d ++ dots ++ rest) = d ++ dots ++ rest.
Proof.
  intros Hd Hdots Hrest Hrest'. unfold splitext_root.
  assert (rfind slash (d ++ dots ++ rest) = rfind slash d) as ->.
  { unfold rfind. rewrite rfind_from_app. apply rfind_from_notin.
    rewrite not_elem_of_app. split; [|done].
    intros Hin. rewrite Forall_forall in Hdots. by apply Hdots in Hin. }
  apply rfind_sep in Hd.
  replace (rfind slash d) with (Z.of_nat (length d) - 1) by lia.
  replace (Z.of_nat (length d) - 1 + 1) with (Z.of_nat (length d)) by lia.
  rewrite Nat2Z.id.
  destruct (rfind_from_spec dot (d ++ dots ++ rest) 0 (-1))
    as [Hnone|(k & Hk & Hdot)]; fold (rfind dot (d ++ dots ++ rest)) in *.
  { rewrite Hnone. by rewrite bool_decide_eq_false_2 by lia. }
  rewrite Hk, Z.add_0_l, Nat2Z.id.
  case_bool_decide as Hsep; [|done]. cbn [andb].
  rewrite bool_decide_eq_false_2; [done|].
  rewrite lookup_app_r in Hdot by lia.
  assert (k - length d < length dots)%nat as Hin.
  { destruct (decide (k - length d < length dots)%nat) as [|Hge]; [done|].
    rewrite lookup_app_r in Hdot by lia.
    apply list_elem_of_lookup_2 in Hdot. done. }
  unfold slice. rewrite drop_app_length, take_app_le by lia.
  intros Hex. apply Exists_exists in Hex as (c & Hc & Hne).
  apply Hne. apply (Forall_take _ (k - length d)) in Hdots.
  rewrite Forall_forall in Hdots. by apply Hdots.
Qed.

(** X25. A relative path whose last component has no dot, or has dots
    only at its start, is recorded in full: files without extension and
    dot-files keep their whole name. *)
Theorem packed_name_keeps (dir dots rest : str) :
  dir = [] ∨ last dir = Some slash ∨ last dir = Some backslash →
  Forall (λ c, c = dot) dots →
  dot ∉ rest → slash ∉ rest → backslash ∉ rest →
  packed_name (dir ++ dots ++ rest) = to_slashes dir ++ dots ++ rest.
Proof.
  intros Hdir Hdots Hrest Hrest' Hrest''.
  change (packed_name ?p) with (splitext_root (to_slashes p)).
  unfold to_slashes at 1. rewrite !fmap_app. fold (to_slashes dir).
  fold (to_slashes dots). fold (to_slashes rest).
  rewrite (to_slashes_id dots), (to_slashes_id rest); [|done|].
  - apply splitext_root_keeps; try done. by apply to_slashes_sep.
  - intros Hin. rewrite Forall_forall in Hdots. by apply Hdots in Hin.
Qed.

Lemma packed_name_keeps_witness :
  packed_name (str_of "cfg/" ++ str_of "." ++ str_of "profile")
  = to_slashes (str_of "cfg/") ++ str_of "." ++ str_of "profile".
Proof.
  apply (packed_name_keeps (str_of "cfg/") (str_of ".") (str_of "profile")).
  - right. left. reflexivity.
  - apply (bool_decide_unpack _). by vm_compute.
  - apply (bool_decide_unpack _). by vm_compute.
  - apply (bool_decide_unpack _). by vm_compute.
  - apply (bool_decide_unpack _). by vm_compute.
Defined.
